(** * nanopolish_anchor: anchors between reference, read and event coordinates

    A shallow embedding of [src/nanopolish_anchor.cpp]:
    - [match_read_to_reference_anchors], the walk over one alignment
      record's CIGAR that samples the read-base coordinate at every
      [stride]-th reference base of a region;
    - [build_input_for_region], which turns the sampled coordinates of every
      read into event anchors and alternative sequences and transposes them
      into anchored columns.

    Conventions.  A C++ [int] is a [Z]; signed overflow is undefined in C++
    and the theorems that need it assume the values stay in range.  The
    conversions to [uint32_t] and [size_t] are written out as reductions
    modulo [2^32] and [2^64].  [std::vector] is a [list] with stdpp's lookup
    [!!], insert [<[i:=x]>], [resize] and [replicate].  [std::string] is a
    [list ascii].  A failed [assert], a thrown exception and undefined
    behaviour (division by zero, indexing past the end of a vector) are all
    [None]. *)

From Stdlib Require Import ZArith Ascii String Lia.
From stdpp Require Import base option list numbers sorting.

Local Open Scope Z_scope.

(** ** Machine integers *)

Definition INT_MAX : Z := 2 ^ 31 - 1.

(** Conversion of a value to [uint32_t]. *)
Definition to_uint32 (z : Z) : Z := z mod 2 ^ 32.

(** Conversion of a value to [size_t] (LP64). *)
Definition to_size_t (z : Z) : Z := z mod 2 ^ 64.

(** Conversion of a [size_t] value to [int]. *)
Definition to_int (z : Z) : Z := (z + 2 ^ 31) mod 2 ^ 32 - 2 ^ 31.

(** [std::string]. *)
Abbreviation cstring := (list ascii).

(** ** Alignment records (htslib's [bam1_t], the fields this file reads) *)

Record bam1_t := Bam1 {
  qname : string;         (* bam_get_qname(record) *)
  core_pos : Z;           (* record->core.pos *)
  is_rev : bool;          (* bam_is_rev(record) *)
  cigar : list Z          (* bam_get_cigar(record), core.n_cigar words of uint32_t *)
}.

(** htslib's CIGAR operation codes. *)
Definition BAM_CMATCH : Z := 0.
Definition BAM_CINS : Z := 1.
Definition BAM_CDEL : Z := 2.
Definition BAM_CREF_SKIP : Z := 3.
Definition BAM_CSOFT_CLIP : Z := 4.
Definition BAM_CHARD_CLIP : Z := 5.
Definition BAM_CPAD : Z := 6.
Definition BAM_CEQUAL : Z := 7.
Definition BAM_CDIFF : Z := 8.

(** [cigar[ci] >> 4] and [cigar[ci] & 0xf]. *)
Definition cigar_len (c : Z) : Z := Z.shiftr c 4.
Definition cigar_op (c : Z) : Z := Z.land c 15.

(** Builds a CIGAR word, for examples. *)
Definition cigar_word (len op : Z) : Z := Z.lor (Z.shiftl len 4) op.

(** ** The CIGAR walk *)

Module Walker.

(** The increments [(read_inc, ref_inc)] of an operation; [None] is the
    [assert(false && "Unhandled cigar operation")]. *)
Definition cigar_incs (op : Z) : option (Z * Z) :=
  if (op =? BAM_CMATCH) || (op =? BAM_CEQUAL) || (op =? BAM_CDIFF) then Some (1, 1)
  else if (op =? BAM_CDEL) || (op =? BAM_CREF_SKIP) then Some (0, 1)
  else if (op =? BAM_CINS) || (op =? BAM_CSOFT_CLIP) then Some (1, 0)
  else if op =? BAM_CHARD_CLIP then Some (1, 0)
  else None.

(** [uint32_t num_anchors = ((end - start) / stride) + 1]; C++ division
    truncates towards zero. *)
Definition num_anchors (start end_ stride : Z) : Z :=
  to_uint32 (Z.quot (end_ - start) stride + 1).

(** The local variables of the walk.  [writes] is a ghost trace: the slot and
    the value of every assignment [out[anchor_id] = read_pos], in execution
    order, most recent first. *)
Record state := State {
  out : list Z;
  read_pos : Z;
  ref_pos : Z;
  writes : list (nat * Z)
}.

(** An operation the walk handles. *)
Definition handled (c : Z) : Prop := is_Some (cigar_incs (cigar_op c)).

(** The order of the ghost trace: a later write goes to a higher slot and
    stores a coordinate at least as large. *)
Definition later (a b : nat * Z) : Prop := (b.1 < a.1)%nat ∧ b.2 ≤ a.2.

Section Walk.
Variables start end_ stride : Z.

(** The condition of the [if] in the inner loop. *)
Definition records (ref_inc : Z) (st : state) : bool :=
  (start <=? ref_pos st) && (ref_pos st <=? end_)
  && (Z.rem (ref_pos st) stride =? 0) && (0 <? ref_inc).

(** The same condition in the words of the specification: the stride is
    counted from [region_start]. *)
Definition records_spec (ref_inc : Z) (st : state) : bool :=
  (start <=? ref_pos st) && (ref_pos st <=? end_)
  && ((ref_pos st - start) mod stride =? 0) && (0 <? ref_inc).

(** [uint32_t anchor_id = (ref_pos - start) / stride]. *)
Definition anchor_id (st : state) : Z :=
  to_uint32 (Z.quot (ref_pos st - start) stride).

(** One iteration of the loop over [j]. *)
Definition unit_step (read_inc ref_inc : Z) (st : state) : option state :=
  if records ref_inc st then
    let a := anchor_id st in
    if a <? num_anchors start end_ stride then
      Some (State (<[Z.to_nat a := read_pos st]> (out st))
                  (read_pos st + read_inc) (ref_pos st + ref_inc)
                  ((Z.to_nat a, read_pos st) :: writes st))
    else None (* assert(anchor_id < num_anchors) *)
  else
    Some (State (out st) (read_pos st + read_inc) (ref_pos st + ref_inc)
                (writes st)).

(** [for(int j = 0; j < cigar_len; ++j)]. *)
Fixpoint unit_steps (n : nat) (read_inc ref_inc : Z) (st : state) : option state :=
  match n with
  | O => Some st
  | S n' => st' ← unit_step read_inc ref_inc st; unit_steps n' read_inc ref_inc st'
  end.

(** The body of the loop over [ci] for the CIGAR word [c]. *)
Definition cigar_step (c : Z) (st : state) : option state :=
  '(read_inc, ref_inc) ← cigar_incs (cigar_op c);
  unit_steps (Z.to_nat (cigar_len c)) read_inc ref_inc st.

(** [for (int ci = 0; ci < c->n_cigar && ref_pos <= end; ++ci)]. *)
Fixpoint walk (cig : list Z) (st : state) : option state :=
  match cig with
  | [] => Some st
  | c :: rest =>
      if ref_pos st <=? end_ then st' ← cigar_step c st; walk rest st'
      else Some st
  end.

(** The state before the first operation. *)
Definition init (record : bam1_t) : state :=
  State (replicate (Z.to_nat (num_anchors start end_ stride)) (-1)) 0
        (core_pos record) [].

(** The whole walk; a zero [stride] divides by zero. *)
Definition run (record : bam1_t) : option state :=
  if stride =? 0 then None else walk (cigar record) (init record).

(** The invariant of the walk: every write of the trace comes from a
    reference position [r] of the region that is a multiple of [stride]
    and lies behind the cursor, the trace and [out] agree, and the trace
    is ordered by [later]. *)
Record inv (st : state) : Prop := {
  inv_len : length (out st) = Z.to_nat (num_anchors start end_ stride);
  inv_read : 0 ≤ read_pos st;
  inv_writes : ∀ s v, (s, v) ∈ writes st →
    ∃ r, start ≤ r < ref_pos st ∧ r ≤ end_ ∧ Z.rem r stride = 0
         ∧ Z.of_nat s = (r - start) / stride ∧ 0 ≤ v ≤ read_pos st;
  inv_out : ∀ i v, out st !! i = Some v → v = -1 ∨ (i, v) ∈ writes st;
  inv_stored : ∀ s v, (s, v) ∈ writes st → out st !! s = Some v;
  inv_sorted : StronglySorted later (writes st)
}.
End Walk.

(** The first multiple of [stride] at or after [start]: the reference
    position whose coordinate the walk stores in slot 0. *)
Definition first_sample (start stride : Z) : Z :=
  stride * ((start + stride - 1) / stride).

(** The reference position whose coordinate the walk stores in slot [i]. *)
Definition sample_pos (start stride : Z) (i : nat) : Z :=
  first_sample start stride + Z.of_nat i * stride.

(** The read coordinate of the reference position [r] under the operations
    [cig] taken from the cursors [read_pos] and [ref_pos]: the read cursor at
    the unit step of a reference-advancing operation that stands on [r], and
    -1 when there is none. *)
Fixpoint locate (cig : list Z) (read_pos ref_pos r : Z) : Z :=
  match cig with
  | [] => -1
  | c :: rest =>
      match cigar_incs (cigar_op c) with
      | None => -1
      | Some (read_inc, ref_inc) =>
          let n := Z.max 0 (cigar_len c) in
          if (0 <? ref_inc) && (ref_pos <=? r) && (r <? ref_pos + n)
          then read_pos + read_inc * (r - ref_pos)
          else locate rest (read_pos + read_inc * n) (ref_pos + ref_inc * n) r
      end
  end.

(** The number of read bases and of reference bases that the operations
    [cig] step over. *)
Fixpoint read_span (cig : list Z) : Z :=
  match cig with
  | [] => 0
  | c :: rest =>
      match cigar_incs (cigar_op c) with
      | Some (read_inc, _) => read_inc * Z.max 0 (cigar_len c)
      | None => 0
      end + read_span rest
  end.

Fixpoint ref_span (cig : list Z) : Z :=
  match cig with
  | [] => 0
  | c :: rest =>
      match cigar_incs (cigar_op c) with
      | Some (_, ref_inc) => ref_inc * Z.max 0 (cigar_len c)
      | None => 0
      end + ref_span rest
  end.

(** The slots of [st] hold the coordinates [G] gives the sampled positions
    behind the reference cursor, and -1 elsewhere. *)
Definition filled (start end_ stride : Z) (G : Z → Z) (st : state) : Prop :=
  length (out st) = Z.to_nat (num_anchors start end_ stride)
  ∧ ∀ i, (i < Z.to_nat (num_anchors start end_ stride))%nat →
      out st !! i
      = Some (if (sample_pos start stride i <? ref_pos st)
                 && (sample_pos start stride i <=? end_)
              then G (sample_pos start stride i) else -1).

End Walker.

(** [match_read_to_reference_anchors(record, start, end, stride)]. *)
Definition match_read_to_reference_anchors
    (record : bam1_t) (start end_ stride : Z) : option (list Z) :=
  Walker.out <$> Walker.run start end_ stride record.

(** ** Reads, anchors and columns *)

(** The two physical strands, [T_IDX] and [C_IDX]. *)
Inductive strand := T_IDX | C_IDX.

(** [SquiggleRead] is declared in nanopolish_squiggle_read.h; its member
    functions used here are taken as fields. *)
Record SquiggleRead := {
  read_name : string;
  read_sequence : cstring;
  flip_k_strand : Z → Z;
  get_closest_event_to : Z → strand → Z
}.

Record HMMStrandAnchor := Anchor {
  event_idx : Z;
  rc : bool
}.

(** [strand_anchors[T_IDX]] and [strand_anchors[C_IDX]]. *)
Record HMMReadAnchorSet := ReadAnchorSet {
  template_anchors : list HMMStrandAnchor;
  complement_anchors : list HMMStrandAnchor
}.

Definition strand_anchors (ras : HMMReadAnchorSet) (s : strand) : list HMMStrandAnchor :=
  match s with
  | T_IDX => template_anchors ras
  | C_IDX => complement_anchors ras
  end.

Record HMMAnchoredColumn := Column {
  anchors : list HMMStrandAnchor;
  base_sequence : cstring;
  alt_sequences : list cstring
}.

Record HMMRealignmentInput := RealignmentInput {
  reads : list SquiggleRead;
  anchored_columns : list HMMAnchoredColumn
}.

(** ** Strings and loops *)

Definition NUL : ascii := Ascii.zero.

(** [s.substr(pos, n)]: both arguments are converted to [size_t]; a position
    past the end throws [std::out_of_range], a count past the end is cut. *)
Definition substr (s : cstring) (pos n : Z) : option cstring :=
  let pos' := to_size_t pos in
  let n' := to_size_t n in
  let size := Z.of_nat (length s) in
  if size <? pos' then None
  else Some (take (Z.to_nat (Z.min n' (size - pos'))) (drop (Z.to_nat pos') s)).

(** [std::string(buf + off, n)] for a buffer that holds the characters of
    [buf] followed by a terminating NUL; reading past the buffer is
    undefined. *)
Definition string_at (buf : cstring) (off n : Z) : option cstring :=
  if off + n <=? Z.of_nat (length buf) + 1
  then Some (take (Z.to_nat n) (drop (Z.to_nat off) (buf ++ [NUL])))
  else None.

(** [for(size_t i = first; i < first + n; ++i) body]. *)
Fixpoint for_range {S : Type} (body : nat → S → option S) (first n : nat) (st : S)
    : option S :=
  match n with
  | O => Some st
  | Datatypes.S n' => st' ← body first st; for_range body (Datatypes.S first) n' st'
  end.

(** ** Building the input of a region *)

(** The per-interval table [read_substrings]. *)
Abbreviation substring_table := (list (list cstring)).

Section Build.
(** Not part of [src/]: the k-mer size [K] and [reverse_complement] of
    nanopolish_common.h, the default-constructed [HMMStrandAnchor] of
    nanopolish_anchor.h, and the loading of a read from its name
    ([Fast5Map::get_path] followed by the [SquiggleRead] constructor). *)
Variable K : Z.
Variable reverse_complement : cstring → cstring.
Variable unset_anchor : HMMStrandAnchor.
Variable load_read : string → SquiggleRead.

(** The coordinates of the alternative sequence between the sampled
    coordinates [k0] and [k1]: flip and swap, then clamp. *)
Definition alt_interval (sr : SquiggleRead) (do_base_rc : bool) (k0 k1 : Z) : Z * Z :=
  let max_kidx := Z.of_nat (length (read_sequence sr)) - K in
  let start_kidx := if do_base_rc then flip_k_strand sr k1 else k0 in
  let end_kidx := if do_base_rc then flip_k_strand sr k0 else k1 in
  (if 0 <=? start_kidx then start_kidx else 0,
   if end_kidx <=? max_kidx then end_kidx else max_kidx).

(** The string [s] pushed to [read_substrings[ai]]. *)
Definition alt_sequence (sr : SquiggleRead) (do_base_rc : bool) (k0 k1 : Z)
    : option cstring :=
  let '(start_kidx, end_kidx) := alt_interval sr do_base_rc k0 k1 in
  s ← substr (read_sequence sr) start_kidx (end_kidx - start_kidx + K);
  Some (if do_base_rc then reverse_complement s else s).

(** [if(ai >= read_substrings.size()) read_substrings.resize(ai + 1);
    read_substrings[ai].push_back(s)]. *)
Definition push_alt (ai : nat) (s : cstring) (tbl : substring_table) : substring_table :=
  let tbl' := if (length tbl <=? ai)%nat then resize (S ai) [] tbl else tbl in
  alter (λ alts, alts ++ [s]) ai tbl'.

(** [read_substrings[i]] as a list, empty past the end of the table. *)
Definition alts (tbl : substring_table) (i : nat) : list cstring :=
  default [] (tbl !! i).

(** The anchor of strand [s] that the loop stores for the coordinate [k]. *)
Definition event_anchor (sr : SquiggleRead) (do_base_rc : bool) (k : Z) (s : strand)
    : HMMStrandAnchor :=
  Anchor (get_closest_event_to sr (if do_base_rc then flip_k_strand sr k else k) s)
         (match s with T_IDX => do_base_rc | C_IDX => negb do_base_rc end).

(** One iteration of the loop over [ai] for one read. *)
Definition anchor_step (sr : SquiggleRead) (do_base_rc : bool)
    (read_bases_for_anchors : list Z) (ai : nat)
    (st : HMMReadAnchorSet * substring_table)
    : option (HMMReadAnchorSet * substring_table) :=
  let '(event_anchors, read_substrings) := st in
  k0 ← read_bases_for_anchors !! ai;
  if k0 =? -1 then Some st
  else
    let read_kidx := if do_base_rc then flip_k_strand sr k0 else k0 in
    let template_idx := get_closest_event_to sr read_kidx T_IDX in
    let complement_idx := get_closest_event_to sr read_kidx C_IDX in
    if (template_idx =? -1) || (complement_idx =? -1) then None
    else
      let event_anchors' :=
        ReadAnchorSet
          (<[ai := Anchor template_idx do_base_rc]> (template_anchors event_anchors))
          (<[ai := Anchor complement_idx (negb do_base_rc)]>
             (complement_anchors event_anchors)) in
      if Z.of_nat ai <? to_size_t (Z.of_nat (length read_bases_for_anchors) - 1) then
        k1 ← read_bases_for_anchors !! S ai;
        s ← alt_sequence sr do_base_rc k0 k1;
        Some (event_anchors', push_alt ai s read_substrings)
      else Some (event_anchors', read_substrings).

(** The anchors and the table after the loop over [ai]. *)
Definition anchor_read (sr : SquiggleRead) (do_base_rc : bool)
    (read_bases_for_anchors : list Z) (read_substrings : substring_table)
    : option (HMMReadAnchorSet * substring_table) :=
  let n := length read_bases_for_anchors in
  for_range (anchor_step sr do_base_rc read_bases_for_anchors) 0 n
    (ReadAnchorSet (replicate n unset_anchor) (replicate n unset_anchor),
     read_substrings).

(** The strings that the loop over [ai] pushes to [read_substrings[ai]]
    when it succeeds. *)
Definition emitted (sr : SquiggleRead) (do_base_rc : bool)
    (read_bases_for_anchors : list Z) (ai : nat) : list cstring :=
  match read_bases_for_anchors !! ai, read_bases_for_anchors !! S ai with
  | Some k0, Some k1 =>
      if k0 =? -1 then [] else option_list (alt_sequence sr do_base_rc k0 k1)
  | _, _ => []
  end.

(** What holds before iteration [i] of the loop over [ai]. *)
Record read_inv (sr : SquiggleRead) (do_base_rc : bool) (rbfa : list Z)
    (tbl0 : substring_table) (i : nat)
    (st : HMMReadAnchorSet * substring_table) : Prop := {
  ri_template : length (template_anchors st.1) = length rbfa;
  ri_complement : length (complement_anchors st.1) = length rbfa;
  ri_anchor : ∀ j k s, rbfa !! j = Some k →
    strand_anchors st.1 s !! j
    = Some (if (j <? i)%nat && negb (k =? -1)
            then event_anchor sr do_base_rc k s else unset_anchor);
  ri_alts : ∀ j,
    alts st.2 j
    = alts tbl0 j ++ (if (j <? i)%nat then emitted sr do_base_rc rbfa j else []);
  ri_grown : ∀ a, (a < length st.2)%nat ↔
    (a < length tbl0)%nat
    ∨ ∃ aj k, ((a ≤ aj)%nat ∧ (aj < i)%nat) ∧ (S aj < length rbfa)%nat
              ∧ rbfa !! aj = Some k ∧ k ≠ -1;
  ri_extracted : ∀ j k0 k1, (j < i)%nat →
    rbfa !! j = Some k0 → k0 ≠ -1 → rbfa !! S j = Some k1 →
    is_Some (alt_sequence sr do_base_rc k0 k1)
}.

(** The anchors after the assignments of iteration [i]. *)
Definition stored (sr : SquiggleRead) (do_base_rc : bool) (i : nat) (k : Z)
    (ea : HMMReadAnchorSet) : HMMReadAnchorSet :=
  ReadAnchorSet
    (<[i := event_anchor sr do_base_rc k T_IDX]> (template_anchors ea))
    (<[i := event_anchor sr do_base_rc k C_IDX]> (complement_anchors ea)).

(** The collaborators answer for every defined coordinate of the sampled
    coordinates: an event on both strands and, for an interval, a start
    coordinate that does not pass the end of the read. *)
Definition answers (sr : SquiggleRead) (do_base_rc : bool)
    (read_bases_for_anchors : list Z) : Prop :=
  Z.of_nat (length (read_sequence sr)) < 2 ^ 64
  ∧ ∀ p k, read_bases_for_anchors !! p = Some k → k ≠ -1 →
      let read_kidx := if do_base_rc then flip_k_strand sr k else k in
      get_closest_event_to sr read_kidx T_IDX ≠ -1
      ∧ get_closest_event_to sr read_kidx C_IDX ≠ -1
      ∧ ∀ k1, read_bases_for_anchors !! S p = Some k1 →
          (alt_interval sr do_base_rc k k1).1 ≤ Z.of_nat (length (read_sequence sr)).

(** What the loop over the alignment records accumulates. *)
Record loaded := Loaded {
  loaded_reads : list SquiggleRead;
  read_anchors : list HMMReadAnchorSet;
  read_substrings : substring_table
}.

Section Region.
Variables (ref_segment : cstring) (start end_ stride : Z).

(** The body of the [while] loop for one record. *)
Definition process_record (record : bam1_t) (acc : loaded) : option loaded :=
  let sr := load_read (qname record) in
  read_bases_for_anchors ← match_read_to_reference_anchors record start end_ stride;
  '(event_anchors, tbl) ←
    anchor_read sr (is_rev record) read_bases_for_anchors (read_substrings acc);
  Some (Loaded (loaded_reads acc ++ [sr]) (read_anchors acc ++ [event_anchors]) tbl).

(** The [while] loop over the records of the region. *)
Fixpoint process_records (records : list bam1_t) (acc : loaded) : option loaded :=
  match records with
  | [] => Some acc
  | record :: rest => acc' ← process_record record acc; process_records rest acc'
  end.

(** The sampled coordinates of a record, [[]] when the walk fails. *)
Definition sampled (record : bam1_t) : list Z :=
  default [] (match_read_to_reference_anchors record start end_ stride).

(** The anchor of a record on strand [s] for the sampled coordinate [k]. *)
Definition read_anchor (record : bam1_t) (s : strand) (k : Z) : HMMStrandAnchor :=
  if k =? -1 then unset_anchor
  else event_anchor (load_read (qname record)) (is_rev record) k s.

(** The strings a record contributes to interval [ai]. *)
Definition read_emitted (record : bam1_t) (ai : nat) : list cstring :=
  emitted (load_read (qname record)) (is_rev record) (sampled record) ai.

(** A record whose coordinate at the sampled position [ai] is defined and
    is not the last one. *)
Definition opens (record : bam1_t) (ai : nat) : Prop :=
  (S ai < Z.to_nat (Walker.num_anchors start end_ stride))%nat
  ∧ ∃ k, sampled record !! ai = Some k ∧ k ≠ -1.

(** The anchor set [ea] is the one the loop builds for [record]. *)
Record anchored (record : bam1_t) (ea : HMMReadAnchorSet) : Prop := {
  an_walk : match_read_to_reference_anchors record start end_ stride
            = Some (sampled record);
  an_sampled :
    length (sampled record) = Z.to_nat (Walker.num_anchors start end_ stride);
  an_template :
    length (template_anchors ea) = Z.to_nat (Walker.num_anchors start end_ stride);
  an_complement :
    length (complement_anchors ea) = Z.to_nat (Walker.num_anchors start end_ stride);
  an_anchor : ∀ j k s, sampled record !! j = Some k →
    strand_anchors ea s !! j = Some (read_anchor record s k);
  an_extracted : ∀ j k0 k1,
    sampled record !! j = Some k0 → k0 ≠ -1 → sampled record !! S j = Some k1 →
    is_Some (alt_sequence (load_read (qname record)) (is_rev record) k0 k1)
}.

(** How the loop over [records] extends the accumulated state [acc0]. *)
Record extends (acc0 : loaded) (records : list bam1_t) (acc : loaded) : Prop := {
  ex_reads : loaded_reads acc = loaded_reads acc0 ++ (load_read ∘ qname <$> records);
  ex_anchors : ∃ ras, read_anchors acc = read_anchors acc0 ++ ras
                      ∧ Forall2 anchored records ras;
  ex_alts : ∀ j,
    alts (read_substrings acc) j
    = alts (read_substrings acc0) j
      ++ concat ((λ record, read_emitted record j) <$> records);
  ex_grown : ∀ a, (a < length (read_substrings acc))%nat ↔
    (a < length (read_substrings acc0))%nat
    ∨ ∃ record aj, record ∈ records ∧ (a ≤ aj)%nat ∧ opens record aj
}.

(** A record the loop can process: handled operations, and collaborators
    that answer for its sampled coordinates. *)
Definition processable (record : bam1_t) : Prop :=
  Forall Walker.handled (cigar record)
  ∧ answers (load_read (qname record)) (is_rev record) (sampled record).

(** The loop over [rai] that fills [column.anchors]. *)
Fixpoint gather_anchors (ras : list HMMReadAnchorSet) (ai : nat)
    : option (list HMMStrandAnchor) :=
  match ras with
  | [] => Some []
  | r :: rest =>
      t ← strand_anchors r T_IDX !! ai;
      c ← strand_anchors r C_IDX !! ai;
      tl ← gather_anchors rest ai;
      Some (t :: c :: tl)
  end.

(** [fetched_len] as [faidx_fetch_seq] sets it for a fetched segment. *)
Definition fetched_len : Z := Z.of_nat (length ref_segment).

(** [base_length] of column [ai]; the comparison and the subtraction are
    done in [size_t]. *)
Definition base_length (ai : nat) : Z :=
  if to_size_t fetched_len <? to_size_t (Z.of_nat ai * stride + (stride + K))
  then to_int (to_size_t (fetched_len - Z.of_nat ai * stride))
  else stride + K.

(** Column [ai] copies the reference offsets from [span_start ai] up to,
    not including, [span_end ai]. *)
Definition span_start (ai : nat) : Z := to_size_t (Z.of_nat ai * stride).
Definition span_end (ai : nat) : Z := span_start ai + to_size_t (base_length ai).

(** The number of reference offsets that columns [ai] and [ai + 1] share. *)
Definition overlap (ai : nat) : Z := span_end ai - span_start (S ai).

(** Column [p] ends before the end of the fetched segment. *)
Definition untruncated (p : nat) : Prop :=
  Z.of_nat p * stride + (stride + K) ≤ fetched_len.

(** [column.base_sequence] of column [ai], with the [assert] on its last
    character. *)
Definition column_base_sequence (ai : nat) : option cstring :=
  s ← string_at ref_segment (span_start ai) (to_size_t (base_length ai));
  c ← list.last s;
  if Ascii.eqb c NUL then None else Some s.

(** One iteration of the loop over the columns; it writes column [ai] of
    the resized [ret.anchored_columns] only. *)
Definition build_column (acc : loaded) (num_anchors num_strands ai : nat)
    : option HMMAnchoredColumn :=
  col_anchors ← gather_anchors (read_anchors acc) ai;
  if negb (length col_anchors =? num_strands)%nat
  then None (* assert(column.anchors.size() == num_strands) *)
  else if Z.of_nat ai =? to_size_t (Z.of_nat num_anchors - 1)
  then Some (Column col_anchors [] [])
  else
    bs ← column_base_sequence ai;
    alts ← read_substrings acc !! ai;
    Some (Column col_anchors bs alts).

(** The transposition into columns, with its two leading [assert]s. *)
Definition transpose (acc : loaded) : option (list HMMAnchoredColumn) :=
  front ← list.head (read_anchors acc);
  back ← list.last (read_anchors acc);
  let num_anchors := length (strand_anchors front T_IDX) in
  let num_strands := (length (read_anchors acc) * 2)%nat in
  if (num_anchors =? length (strand_anchors back T_IDX))%nat
  then mapM (build_column acc num_anchors num_strands) (seq 0 num_anchors)
  else None.

(** [build_input_for_region] on the records the iterator yields and the
    reference segment fetched for [start, end]. *)
Definition build_input_for_region (records : list bam1_t)
    : option HMMRealignmentInput :=
  acc ← process_records records (Loaded [] [] []);
  cols ← transpose acc;
  Some (RealignmentInput (loaded_reads acc) cols).
End Region.
End Build.

(** ** Sample inputs *)

(** A record with [n] matched bases starting at reference position [pos]. *)
Definition matched_read (pos n : Z) : bam1_t :=
  Bam1 "read" pos false [cigar_word n BAM_CMATCH].

(** A record with [n] matched bases, [d] deleted ones and [m] matched
    ones. *)
Definition deleted_read (pos n d m : Z) : bam1_t :=
  Bam1 "read" pos false
    [cigar_word n BAM_CMATCH; cigar_word d BAM_CDEL; cigar_word m BAM_CMATCH].

(** A record with [n] matched bases followed by [c] soft-clipped ones. *)
Definition clipped_read (pos n c : Z) : bam1_t :=
  Bam1 "read" pos false [cigar_word n BAM_CMATCH; cigar_word c BAM_CSOFT_CLIP].

(** The same alignment on the reverse strand. *)
Definition reverse_read (pos n : Z) : bam1_t :=
  Bam1 "read" pos true [cigar_word n BAM_CMATCH].

(** A record with [n] matched bases, [p] padding positions and [m] matched
    bases. *)
Definition padded_read (pos n p m : Z) : bam1_t :=
  Bam1 "read" pos false
    [cigar_word n BAM_CMATCH; cigar_word p BAM_CPAD; cigar_word m BAM_CMATCH].

(** An instance of the parameters of [Build]: a k-mer size of 5, the
    reverse complement over the alphabet ACGT, the flip that mirrors a k-mer
    coordinate, events numbered from the coordinate, and an unset anchor with
    event index -1. *)
Module Sample.
Definition K : Z := 5.

Definition complement_base (c : ascii) : ascii :=
  if Ascii.eqb c "A" then "T"%char
  else if Ascii.eqb c "T" then "A"%char
  else if Ascii.eqb c "C" then "G"%char
  else if Ascii.eqb c "G" then "C"%char
  else "N"%char.

Definition reverse_complement (s : cstring) : cstring := rev (map complement_base s).

Definition squiggle_read (name seq : string) : SquiggleRead :=
  let s := list_ascii_of_string seq in
  {| read_name := name;
     read_sequence := s;
     flip_k_strand := λ k, Z.of_nat (length s) - k - K;
     get_closest_event_to := λ k strand,
       match strand with T_IDX => 2 * k | C_IDX => 2 * k + 1 end |}.

Definition load_read (name : string) : SquiggleRead :=
  squiggle_read name "ACGTTGCAACGG".

Definition unset_anchor : HMMStrandAnchor := Anchor (-1) false.

Definition build (ref_segment : string) (start end_ stride : Z)
    (records : list bam1_t) : option HMMRealignmentInput :=
  build_input_for_region K reverse_complement unset_anchor load_read
    (list_ascii_of_string ref_segment) start end_ stride records.
End Sample.

(** * Proofs *)

(** ** Machine integers *)

Lemma to_uint32_small z : 0 ≤ z < 2 ^ 32 → to_uint32 z = z.
Proof. intros. unfold to_uint32. apply Z.mod_small. lia. Qed.

Lemma to_size_t_small z : 0 ≤ z < 2 ^ 64 → to_size_t z = z.
Proof. intros. unfold to_size_t. apply Z.mod_small. lia. Qed.

Lemma to_size_t_bound z : 0 ≤ to_size_t z < 2 ^ 64.
Proof. unfold to_size_t. apply Z.mod_pos_bound. lia. Qed.

Lemma to_int_small z : - 2 ^ 31 ≤ z < 2 ^ 31 → to_int z = z.
Proof. intros. unfold to_int. rewrite Z.mod_small by lia. lia. Qed.

Lemma num_anchors_bound start end_ stride :
  0 ≤ Walker.num_anchors start end_ stride < 2 ^ 32.
Proof. unfold Walker.num_anchors, to_uint32. apply Z.mod_pos_bound. lia. Qed.

(** ** The CIGAR walk *)

Module WalkerFacts.
Import Walker.

Lemma cigar_incs_bounds op read_inc ref_inc :
  cigar_incs op = Some (read_inc, ref_inc) → 0 ≤ read_inc ∧ 0 ≤ ref_inc.
Proof.
  unfold cigar_incs. repeat case_match; intros; simplify_eq; lia.
Qed.

Section Valid.
Variables start end_ stride : Z.
Hypothesis Hstride : 0 < stride.
Hypothesis Hregion : start ≤ end_.
Hypothesis Hrange : end_ - start ≤ INT_MAX.

Local Abbreviation Inv := (inv start end_ stride).

Lemma records_iff ref_inc st :
  records start end_ stride ref_inc st = true ↔
  start ≤ ref_pos st ≤ end_ ∧ Z.rem (ref_pos st) stride = 0 ∧ 0 < ref_inc.
Proof. unfold records. rewrite !andb_true_iff. lia. Qed.

Lemma quot_bound a :
  0 ≤ a ≤ end_ - start →
  0 ≤ a / stride ∧ a / stride ≤ (end_ - start) / stride
  ∧ (end_ - start) / stride < 2 ^ 31.
Proof.
  intros Ha. unfold INT_MAX in Hrange.
  pose proof (Z.div_pos a stride ltac:(lia) Hstride).
  pose proof (Z.div_le_mono a (end_ - start) stride Hstride ltac:(lia)).
  pose proof (Z.mul_div_le (end_ - start) stride Hstride).
  nia.
Qed.

Lemma num_anchors_valid :
  num_anchors start end_ stride = (end_ - start) / stride + 1.
Proof.
  unfold num_anchors. rewrite Z.quot_div_nonneg by lia.
  pose proof (quot_bound (end_ - start) ltac:(lia)).
  apply to_uint32_small. lia.
Qed.

Lemma anchor_id_valid st :
  start ≤ ref_pos st ≤ end_ →
  anchor_id start stride st = (ref_pos st - start) / stride
  ∧ 0 ≤ anchor_id start stride st < num_anchors start end_ stride.
Proof.
  intros H. unfold anchor_id. rewrite Z.quot_div_nonneg by lia.
  pose proof (quot_bound (ref_pos st - start) ltac:(lia)).
  rewrite to_uint32_small by lia. rewrite num_anchors_valid. lia.
Qed.

Lemma slot_lt r r' :
  start ≤ r → r < r' → Z.rem r stride = 0 → Z.rem r' stride = 0 →
  (r - start) / stride < (r' - start) / stride.
Proof.
  intros Hr Hlt E E'.
  apply Z.quot_exact in E, E'; try lia.
  assert (r + stride ≤ r').
  { generalize dependent (r ÷ stride). generalize dependent (r' ÷ stride).
    intros q' -> q ->. intros.
    assert (q < q') by nia. assert (q + 1 ≤ q') by lia. nia. }
  pose proof (Z.div_le_mono (r - start + 1 * stride) (r' - start) stride Hstride
                ltac:(lia)) as Hm.
  rewrite Z.div_add in Hm by lia. lia.
Qed.

Lemma inv_init record : Inv (init start end_ stride record).
Proof.
  split; simpl.
  - by rewrite length_replicate.
  - lia.
  - intros s v H. by apply elem_of_nil in H.
  - intros i v H. apply lookup_replicate in H. left. tauto.
  - intros s v H. by apply elem_of_nil in H.
  - constructor.
Qed.

Lemma unit_step_inv read_inc ref_inc st :
  0 ≤ read_inc → 0 ≤ ref_inc → Inv st →
  ∃ st', unit_step start end_ stride read_inc ref_inc st = Some st' ∧ Inv st'.
Proof.
  intros Hri Hfi [Hlen Hread Hw Hout Hst Hsort]. unfold unit_step.
  destruct (records _ _ _ _ _) eqn:Hrec.
  - apply records_iff in Hrec as (Hin & Hrem & Hinc).
    destruct (anchor_id_valid st Hin) as [Ha [Ha0 HaN]].
    apply Z.ltb_lt in HaN as Hab'. rewrite Hab'.
    eexists; split; [done|].
    set (a := Z.to_nat (anchor_id start stride st)).
    assert (Hbelow : ∀ s v, (s, v) ∈ writes st → (s < a)%nat ∧ v ≤ read_pos st).
    { intros s v Hsv. destruct (Hw _ _ Hsv) as (r & Hr & _ & Hrr & Hs & Hv).
      pose proof (slot_lt r (ref_pos st) ltac:(lia) ltac:(lia) Hrr Hrem). subst a. lia. }
    assert (Halen : (a < length (out st))%nat) by (subst a; lia).
    split; simpl.
    + by rewrite length_insert.
    + lia.
    + intros s v Hsv. apply elem_of_cons in Hsv as [Heq|Hsv].
      * simplify_eq. exists (ref_pos st). subst a. repeat split; try lia.
      * destruct (Hw _ _ Hsv) as (r & ? & ? & ? & ? & ?). exists r. repeat split; try lia; done.
    + intros i v Hi. destruct (decide (i = a)) as [->|Hne].
      * rewrite list_lookup_insert_eq in Hi by done. simplify_eq. right. left.
      * rewrite list_lookup_insert_ne in Hi by done.
        destruct (Hout _ _ Hi); [by left|right; by right].
    + intros s v Hsv. apply elem_of_cons in Hsv as [Heq|Hsv].
      * simplify_eq. by rewrite list_lookup_insert_eq.
      * destruct (Hbelow _ _ Hsv). rewrite list_lookup_insert_ne by lia. by apply Hst.
    + constructor; [done|]. apply Forall_forall. intros [s v] Hsv.
      destruct (Hbelow _ _ Hsv). split; simpl; lia.
  - eexists; split; [done|]. split; simpl; try done; try lia.
    intros s v Hsv. destruct (Hw _ _ Hsv) as (r & ? & ? & ? & ? & ?).
    exists r. repeat split; try lia; done.
Qed.

Lemma unit_steps_inv n read_inc ref_inc st :
  0 ≤ read_inc → 0 ≤ ref_inc → Inv st →
  ∃ st', unit_steps start end_ stride n read_inc ref_inc st = Some st' ∧ Inv st'.
Proof.
  intros Hri Hfi. revert st. induction n as [|n IH]; intros st Hinv; simpl.
  - by exists st.
  - destruct (unit_step_inv read_inc ref_inc st Hri Hfi Hinv) as (st1 & -> & Hinv1).
    simpl. by apply IH.
Qed.

Lemma cigar_step_inv c st st' :
  Inv st → cigar_step start end_ stride c st = Some st' → Inv st'.
Proof.
  intros Hinv. unfold cigar_step.
  destruct (cigar_incs _) as [[ri fi]|] eqn:E; simpl; [|done].
  destruct (cigar_incs_bounds _ _ _ E).
  destruct (unit_steps_inv (Z.to_nat (cigar_len c)) ri fi st) as (st1 & -> & ?); try done.
  by intros [= <-].
Qed.

Lemma cigar_step_total c st :
  Inv st → handled c → is_Some (cigar_step start end_ stride c st).
Proof.
  intros Hinv [[ri fi] E]. unfold cigar_step. rewrite E. simpl.
  destruct (cigar_incs_bounds _ _ _ E).
  destruct (unit_steps_inv (Z.to_nat (cigar_len c)) ri fi st) as (st1 & -> & ?); done.
Qed.

Lemma walk_inv cig st st' :
  Inv st → walk start end_ stride cig st = Some st' → Inv st'.
Proof.
  revert st. induction cig as [|c cig IH]; intros st Hinv H; simpl in H.
  - by simplify_eq.
  - case_match; [|by simplify_eq].
    destruct (cigar_step _ _ _ c st) as [st1|] eqn:E; simpl in H; [|done].
    eauto using cigar_step_inv.
Qed.

Lemma walk_total cig st :
  Inv st → Forall handled cig → is_Some (walk start end_ stride cig st).
Proof.
  revert st. induction cig as [|c cig IH]; intros st Hinv Hall; simpl; [done|].
  apply Forall_cons in Hall as [Hc Hall].
  case_match; [|done].
  destruct (cigar_step_total c st Hinv Hc) as [st1 E]. rewrite E. simpl.
  eauto using cigar_step_inv.
Qed.
End Valid.

Section Lengths.
Variables start end_ stride : Z.

(** The test of the code and the test of the specification agree when
    [start] is a multiple of [stride]. *)
Lemma records_spec_aligned ref_inc st :
  0 < stride → Z.rem start stride = 0 →
  records start end_ stride ref_inc st = records_spec start end_ stride ref_inc st.
Proof.
  intros Hs Ha. unfold records, records_spec. do 2 f_equal.
  apply Z.rem_divide in Ha; [|lia].
  destruct (Z.eqb_spec (Z.rem (ref_pos st) stride) 0) as [E|E],
           (Z.eqb_spec ((ref_pos st - start) mod stride) 0) as [E'|E']; try done.
  - destruct E'. apply Z.mod_divide; [lia|].
    apply Z.divide_sub_r; [|done]. by apply Z.rem_divide; [lia|].
  - destruct E. apply Z.rem_divide; [lia|].
    apply Z.mod_divide in E'; [|lia].
    replace (ref_pos st) with (ref_pos st - start + start) by lia.
    by apply Z.divide_add_r.
Qed.

Lemma unit_step_length read_inc ref_inc st st' :
  unit_step start end_ stride read_inc ref_inc st = Some st' →
  length (out st') = length (out st).
Proof.
  unfold unit_step. repeat case_match; intros; simplify_eq; simpl; try done.
  by rewrite length_insert.
Qed.

Lemma unit_steps_length n read_inc ref_inc st st' :
  unit_steps start end_ stride n read_inc ref_inc st = Some st' →
  length (out st') = length (out st).
Proof.
  revert st. induction n as [|n IH]; intros st H; simpl in H; simplify_eq; [done|].
  destruct (unit_step _ _ _ _ _ st) as [st1|] eqn:E; simpl in H; [|done].
  rewrite (IH _ H). eauto using unit_step_length.
Qed.

Lemma walk_length cig st st' :
  walk start end_ stride cig st = Some st' → length (out st') = length (out st).
Proof.
  revert st. induction cig as [|c cig IH]; intros st H; simpl in H; simplify_eq; [done|].
  case_match; simplify_eq; [|done].
  destruct (cigar_step _ _ _ c st) as [st1|] eqn:E; simpl in H; [|done].
  rewrite (IH _ H). unfold cigar_step in E.
  destruct (cigar_incs _) as [[ri fi]|]; simpl in E; [|done].
  eauto using unit_steps_length.
Qed.
End Lengths.

Lemma later_pairwise l a b :
  StronglySorted later l → a ∈ l → b ∈ l → (a.1 < b.1)%nat → a.2 ≤ b.2.
Proof.
  induction 1 as [|x l Hl IH Hx]; intros Ha Hb Hlt.
  - by apply elem_of_nil in Ha.
  - rewrite Forall_forall in Hx.
    apply elem_of_cons in Ha as [->|Ha], Hb as [->|Hb].
    + lia.
    + destruct (Hx _ Hb). lia.
    + destruct (Hx _ Ha). lia.
    + by apply IH.
Qed.

Lemma later_NoDup l : StronglySorted later l → NoDup l.*1.
Proof.
  induction 1 as [|x l Hl IH Hx]; simpl; constructor; [|done].
  rewrite Forall_forall in Hx. intros Hin.
  apply list_elem_of_fmap in Hin as (y & Hy & Hin).
  destruct (Hx _ Hin). lia.
Qed.

Lemma run_inv start end_ stride record st :
  0 < stride → start ≤ end_ → end_ - start ≤ INT_MAX →
  run start end_ stride record = Some st → inv start end_ stride st.
Proof.
  intros Hs Hr Hm. unfold run. case_match; [done|].
  apply walk_inv; try done. by apply inv_init.
Qed.
End WalkerFacts.

Lemma walker_length record start end_ stride out :
  match_read_to_reference_anchors record start end_ stride = Some out →
  length out = Z.to_nat (Walker.num_anchors start end_ stride).
Proof.
  unfold match_read_to_reference_anchors, Walker.run. intros H.
  case_match; [done|].
  destruct (Walker.walk _ _ _ _ _) as [st|] eqn:E; simplify_eq/=.
  rewrite (WalkerFacts.walk_length _ _ _ _ _ _ E). simpl. by rewrite length_replicate.
Qed.

Lemma match_read_total record start end_ stride :
  start ≤ end_ → 0 < stride → end_ - start ≤ INT_MAX →
  Forall Walker.handled (cigar record) →
  is_Some (match_read_to_reference_anchors record start end_ stride).
Proof.
  intros Hr Hs Hm Hall. unfold match_read_to_reference_anchors, Walker.run.
  destruct (Z.eqb_spec stride 0) as [|_]; [lia|].
  destruct (WalkerFacts.walk_total start end_ stride Hs Hr Hm (cigar record)
              (Walker.init start end_ stride record)) as [st ->]; try done.
  by apply WalkerFacts.inv_init.
Qed.

(** C4: for a valid region (and [end - start] within [int]) the output of
    the walk has [(end - start) / stride + 1] slots, whatever the record's
    operations; and the walk returns an output whenever all the operations
    are handled ones. *)
Theorem walker_output_length record start end_ stride :
  start ≤ end_ → 0 < stride → end_ - start ≤ INT_MAX →
  (∀ out, match_read_to_reference_anchors record start end_ stride = Some out →
          Z.of_nat (length out) = (end_ - start) / stride + 1)
  ∧ (Forall Walker.handled (cigar record) →
     is_Some (match_read_to_reference_anchors record start end_ stride)).
Proof.
  intros Hr Hs Hm. split.
  - intros out H. rewrite (walker_length _ _ _ _ _ H).
    rewrite WalkerFacts.num_anchors_valid by done.
    pose proof (WalkerFacts.quot_bound start end_ stride Hs Hm (end_ - start)). lia.
  - by apply match_read_total.
Qed.

Lemma walker_output_length_witness :
  (∀ out, match_read_to_reference_anchors (matched_read 1000 101) 1000 1100 50 = Some out →
          Z.of_nat (length out) = (1100 - 1000) / 50 + 1)
  ∧ (Forall Walker.handled (cigar (matched_read 1000 101)) →
     is_Some (match_read_to_reference_anchors (matched_read 1000 101) 1000 1100 50)).
Proof.
  apply (walker_output_length (matched_read 1000 101) 1000 1100 50);
    [lia | lia | unfold INT_MAX; lia].
Defined.

(** C10: in the output of the walk the defined entries, in slot order, are
    non-negative and non-decreasing; the defined entries are exactly the
    writes of the trace, and no slot is written twice. *)
Theorem walker_output_monotone record start end_ stride st :
  start ≤ end_ → 0 < stride → end_ - start ≤ INT_MAX →
  Walker.run start end_ stride record = Some st →
  match_read_to_reference_anchors record start end_ stride = Some (Walker.out st)
  ∧ (∀ i j v w, (i ≤ j)%nat →
       Walker.out st !! i = Some v → Walker.out st !! j = Some w →
       v ≠ -1 → w ≠ -1 → 0 ≤ v ≤ w)
  ∧ (∀ i v, Walker.out st !! i = Some v → v ≠ -1 ↔ (i, v) ∈ Walker.writes st)
  ∧ NoDup (Walker.writes st).*1.
Proof.
  intros Hr Hs Hm Hrun.
  destruct (WalkerFacts.run_inv _ _ _ _ _ Hs Hr Hm Hrun)
    as [Hlen Hread Hw Hout Hst Hsort].
  assert (Hin : ∀ i v, Walker.out st !! i = Some v → v ≠ -1 →
                       (i, v) ∈ Walker.writes st).
  { intros i v Hi Hv. by destruct (Hout _ _ Hi). }
  split; [|split; [|split]].
  - unfold match_read_to_reference_anchors. by rewrite Hrun.
  - intros i j v w Hij Hi Hj Hv Hw'. split.
    + destruct (Hw _ _ (Hin _ _ Hi Hv)) as (r & ? & ? & ? & ? & ?). lia.
    + destruct (decide (i = j)) as [->|Hne]; [by simplify_eq|].
      apply (WalkerFacts.later_pairwise _ (i, v) (j, w) Hsort); simpl; auto with lia.
  - intros i v Hi. split; [by apply Hin|].
    intros Hiv ->. destruct (Hw _ _ Hiv) as (r & ? & ? & ? & ? & ?). lia.
  - by apply WalkerFacts.later_NoDup.
Qed.

Lemma walker_output_monotone_witness :
  let st := Walker.State [0; 40; 90] 91 1101 [(2%nat, 90); (1%nat, 40); (0%nat, 0)] in
  match_read_to_reference_anchors (deleted_read 1000 20 10 71) 1000 1100 50
  = Some (Walker.out st)
  ∧ (∀ i j v w, (i ≤ j)%nat →
       Walker.out st !! i = Some v → Walker.out st !! j = Some w →
       v ≠ -1 → w ≠ -1 → 0 ≤ v ≤ w)
  ∧ (∀ i v, Walker.out st !! i = Some v → v ≠ -1 ↔ (i, v) ∈ Walker.writes st)
  ∧ NoDup (Walker.writes st).*1.
Proof.
  apply (walker_output_monotone (deleted_read 1000 20 10 71) 1000 1100 50);
    [lia | lia | unfold INT_MAX; lia | vm_compute; reflexivity].
Defined.

(** ** The coordinate of a sampled position *)

Module LocateFacts.
Import Walker WalkerFacts.

Lemma cigar_incs_cases op read_inc ref_inc :
  cigar_incs op = Some (read_inc, ref_inc) →
  (read_inc = 0 ∨ read_inc = 1) ∧ (ref_inc = 0 ∨ ref_inc = 1).
Proof.
  unfold cigar_incs. repeat case_match; intros; simplify_eq; lia.
Qed.

Lemma locate_before cig read_pos ref_pos r :
  r < ref_pos → locate cig read_pos ref_pos r = -1.
Proof.
  revert read_pos ref_pos. induction cig as [|c cig IH]; intros read_pos ref_pos Hr; simpl.
  - done.
  - destruct (cigar_incs _) as [[ri fi]|] eqn:E; [|done].
    destruct (cigar_incs_cases _ _ _ E) as [_ Hfi].
    destruct (Z.leb_spec ref_pos r); [lia|]. rewrite andb_false_r. simpl.
    apply IH. nia.
Qed.

Section Samples.
Variables start end_ stride : Z.
Hypothesis Hstride : 0 < stride.
Hypothesis Hregion : start ≤ end_.
Hypothesis Hrange : end_ - start ≤ INT_MAX.

Local Abbreviation N := (Z.to_nat (num_anchors start end_ stride)).
Local Abbreviation ρ := (sample_pos start stride).

Lemma first_sample_spec :
  start ≤ first_sample start stride < start + stride
  ∧ Z.rem (first_sample start stride) stride = 0.
Proof.
  unfold first_sample. split.
  - pose proof (Z.mul_div_le (start + stride - 1) stride Hstride).
    pose proof (Z.mul_succ_div_gt (start + stride - 1) stride Hstride). lia.
  - rewrite Z.mul_comm. apply Z.rem_mul. lia.
Qed.

(** A multiple of [stride] at or after [start] is the sampled position of
    its slot. *)
Lemma sample_pos_slot r :
  start ≤ r → Z.rem r stride = 0 →
  r = ρ (Z.to_nat ((r - start) / stride)) ∧ 0 ≤ (r - start) / stride.
Proof.
  intros Hr Hrem. destruct first_sample_spec as [Hfs Hfrem].
  unfold sample_pos. set (fs := first_sample start stride) in *.
  apply Z.quot_exact in Hrem, Hfrem; try lia.
  set (k := r ÷ stride) in *. set (q := fs ÷ stride) in *.
  assert (q ≤ k) by nia.
  assert (Hdiv : (r - start) / stride = k - q).
  { symmetry. apply (Z.div_unique_pos _ _ _ (fs - start)); [lia|]. lia. }
  rewrite Hdiv. split; [|lia]. rewrite Z2Nat.id by lia. lia.
Qed.

Lemma sample_pos_inv i :
  start ≤ ρ i ∧ Z.rem (ρ i) stride = 0 ∧ (ρ i - start) / stride = Z.of_nat i.
Proof.
  destruct first_sample_spec as [Hfs Hfrem]. unfold sample_pos.
  set (fs := first_sample start stride) in *. split; [nia|]. split.
  - apply Z.rem_divide; [lia|]. apply Z.rem_divide in Hfrem; [|lia].
    apply Z.divide_add_r; [done|]. apply Z.divide_factor_r.
  - symmetry. apply (Z.div_unique_pos _ _ _ (fs - start)); lia.
Qed.

Lemma sample_pos_inj i j : ρ i = ρ j → i = j.
Proof. unfold sample_pos. intros. nia. Qed.

Lemma sample_pos_bound i : ρ i ≤ end_ → (i < N)%nat.
Proof.
  intros Hle. destruct (sample_pos_inv i) as (Hs & _ & Hi).
  rewrite num_anchors_valid by done.
  pose proof (Z.div_le_mono (ρ i - start) (end_ - start) stride Hstride ltac:(lia)).
  lia.
Qed.

Local Abbreviation filled' := (filled start end_ stride).

Lemma unit_step_filled read_inc ref_inc st st' G :
  ref_inc = 0 ∨ ref_inc = 1 →
  filled' G st → (ref_inc = 1 → G (ref_pos st) = read_pos st) →
  unit_step start end_ stride read_inc ref_inc st = Some st' →
  filled' G st' ∧ read_pos st' = read_pos st + read_inc
  ∧ ref_pos st' = ref_pos st + ref_inc.
Proof.
  intros Hfi [Hlen Hout] HG. unfold unit_step.
  destruct (records _ _ _ _ _) eqn:Hrec.
  - apply (records_iff start end_ stride) in Hrec as (Hin & Hrem & Hinc).
    destruct (anchor_id_valid start end_ stride Hstride Hregion Hrange st Hin) as [Ha [Ha0 HaN]].
    apply Z.ltb_lt in HaN as Hlt. rewrite Hlt. intros [= <-]. simpl.
    destruct (sample_pos_slot (ref_pos st) ltac:(lia) Hrem) as [Hslot _].
    rewrite <- Ha in Hslot. set (a := Z.to_nat (anchor_id start stride st)) in *.
    split; [|done]. split; simpl; [by rewrite length_insert|].
    intros i Hi. destruct (decide (i = a)) as [->|Hne].
    + rewrite list_lookup_insert_eq by lia. rewrite <- Hslot.
      destruct (Z.ltb_spec (ref_pos st) (ref_pos st + ref_inc)); [|lia].
      destruct (Z.leb_spec (ref_pos st) end_); [|lia]. simpl.
      by rewrite HG by lia.
    + rewrite list_lookup_insert_ne by done. rewrite (Hout i Hi).
      assert (ρ i ≠ ref_pos st).
      { rewrite Hslot. intros Heq. by apply sample_pos_inj in Heq. }
      destruct (Z.ltb_spec (ρ i) (ref_pos st)),
               (Z.ltb_spec (ρ i) (ref_pos st + ref_inc)); try done; lia.
  - intros [= <-]. simpl. split; [|done]. split; [done|]. simpl.
    intros i Hi. rewrite (Hout i Hi).
    destruct (Z.ltb_spec (ρ i) (ref_pos st)),
             (Z.ltb_spec (ρ i) (ref_pos st + ref_inc)); try done; try lia.
    destruct (Z.leb_spec (ρ i) end_); [|done]. simpl.
    destruct (sample_pos_inv i) as (Hs & Hr & _).
    assert (records start end_ stride ref_inc st = true); [|congruence].
    apply (records_iff start end_ stride). assert (ρ i = ref_pos st) as <- by lia.
    repeat split; try done; lia.
Qed.

Lemma unit_steps_filled n read_inc ref_inc st st' G :
  ref_inc = 0 ∨ ref_inc = 1 →
  filled' G st →
  (ref_inc = 1 → ∀ r, ref_pos st ≤ r < ref_pos st + Z.of_nat n →
                      G r = read_pos st + read_inc * (r - ref_pos st)) →
  unit_steps start end_ stride n read_inc ref_inc st = Some st' →
  filled' G st' ∧ read_pos st' = read_pos st + read_inc * Z.of_nat n
  ∧ ref_pos st' = ref_pos st + ref_inc * Z.of_nat n.
Proof.
  intros Hfi. revert st. induction n as [|n IH]; intros st Hf HG H; simpl in H.
  - simplify_eq. split; [done|]. lia.
  - destruct (unit_step _ _ _ _ _ st) as [st1|] eqn:E; simpl in H; [|done].
    apply (unit_step_filled _ _ _ _ G Hfi Hf) in E as (Hf1 & Hread & Href).
    2:{ intros ->. rewrite HG by lia. lia. }
    destruct (IH st1 Hf1) as (Hf' & Hread' & Href'); [|done|].
    { intros -> r Hr. rewrite HG by lia. rewrite Hread, Href. lia. }
    split; [done|]. rewrite Hread', Href', Hread, Href. lia.
Qed.

Lemma walk_filled cig st st' F :
  filled' F st →
  (∀ r, ref_pos st ≤ r → locate cig (read_pos st) (ref_pos st) r = F r) →
  walk start end_ stride cig st = Some st' →
  ∀ i, (i < N)%nat → out st' !! i = Some (if ρ i <=? end_ then F (ρ i) else -1).
Proof.
  revert st. induction cig as [|c cig IH]; intros st Hf HF H i Hi; simpl in H.
  - simplify_eq. destruct Hf as [_ Hout]. rewrite (Hout i Hi).
    destruct (Z.ltb_spec (ρ i) (ref_pos st')); simpl; [done|].
    destruct (Z.leb_spec (ρ i) end_); [|done]. rewrite <- HF by lia. done.
  - destruct (Z.leb_spec (ref_pos st) end_) as [Hle|Hgt].
    + destruct (cigar_step _ _ _ c st) as [st1|] eqn:E; simpl in H; [|done].
      unfold cigar_step in E.
      destruct (cigar_incs (cigar_op c)) as [[ri fi]|] eqn:Hincs; simpl in E; [|done].
      destruct (cigar_incs_cases _ _ _ Hincs) as [_ Hfi].
      assert (Hn : Z.of_nat (Z.to_nat (cigar_len c)) = Z.max 0 (cigar_len c)) by lia.
      apply (unit_steps_filled _ _ _ _ _ F Hfi Hf) in E as (Hf1 & Hread & Href).
      2:{ intros -> r Hr. rewrite <- HF by lia. simpl. rewrite Hincs, <- Hn.
          destruct (Z.leb_spec (ref_pos st) r); [|lia].
          destruct (Z.ltb_spec r (ref_pos st + Z.of_nat (Z.to_nat (cigar_len c)))); [|lia].
          done. }
      apply (IH st1 Hf1); [|done..].
      intros r Hr. rewrite <- HF by nia. simpl. rewrite Hincs, <- Hn, Hread, Href.
      destruct Hfi as [->| ->]; simpl.
      * done.
      * destruct (Z.ltb_spec r (ref_pos st + Z.of_nat (Z.to_nat (cigar_len c)))); [lia|].
        by rewrite andb_false_r.
    + simplify_eq. destruct Hf as [_ Hout]. rewrite (Hout i Hi).
      destruct (Z.leb_spec (ρ i) end_); [|by rewrite andb_false_r].
      destruct (Z.ltb_spec (ρ i) (ref_pos st')); [done|lia].
Qed.

(** The walk stores in every slot the coordinate [locate] gives its
    sampled position, when that position is inside the region. *)
Lemma run_locate record st :
  run start end_ stride record = Some st →
  ∀ i, (i < N)%nat →
    out st !! i
    = Some (if ρ i <=? end_
            then locate (cigar record) 0 (core_pos record) (ρ i) else -1).
Proof.
  unfold run. destruct (Z.eqb_spec stride 0); [done|]. intros H i Hi.
  apply (walk_filled _ _ _ (locate (cigar record) 0 (core_pos record))) with (i := i) in H;
    try done.
  split; simpl; [by rewrite length_replicate|].
  clear i Hi. intros i Hi. rewrite lookup_replicate_2 by done. f_equal.
  destruct (Z.ltb_spec (ρ i) (core_pos record)); simpl; [|done].
  destruct (Z.leb_spec (ρ i) end_); [|done].
  by rewrite locate_before.
Qed.
End Samples.

(** *** Cursors and spans *)

Lemma ref_span_nonneg cig : 0 ≤ ref_span cig.
Proof.
  induction cig as [|c cig IH]; simpl; [done|].
  destruct (cigar_incs (cigar_op c)) as [[ri fi]|] eqn:E; [|lia].
  apply cigar_incs_bounds in E. nia.
Qed.


Section Cursors.
Variables start end_ stride : Z.

Lemma unit_steps_cursor n read_inc ref_inc st st' :
  unit_steps start end_ stride n read_inc ref_inc st = Some st' →
  read_pos st' = read_pos st + read_inc * Z.of_nat n
  ∧ ref_pos st' = ref_pos st + ref_inc * Z.of_nat n.
Proof.
  revert st. induction n as [|n IH]; intros st H; simpl in H.
  - simplify_eq. lia.
  - destruct (unit_step _ _ _ _ _ st) as [st1|] eqn:E; simpl in H; [|done].
    apply IH in H as [-> ->]. unfold unit_step in E.
    repeat case_match; simplify_eq; simpl; lia.
Qed.

Lemma cigar_step_cursor c st st' :
  cigar_step start end_ stride c st = Some st' →
  ∃ read_inc ref_inc,
    cigar_incs (cigar_op c) = Some (read_inc, ref_inc)
    ∧ read_pos st' = read_pos st + read_inc * Z.max 0 (cigar_len c)
    ∧ ref_pos st' = ref_pos st + ref_inc * Z.max 0 (cigar_len c).
Proof.
  unfold cigar_step. intros H.
  destruct (cigar_incs (cigar_op c)) as [[ri fi]|]; simpl in H; [|done].
  apply unit_steps_cursor in H as [-> ->]. exists ri, fi. split; [done|]. lia.
Qed.

Lemma walk_stops pre post st :
  end_ < ref_pos st + ref_span pre →
  walk start end_ stride (pre ++ post) st = walk start end_ stride pre st.
Proof.
  revert st. induction pre as [|c pre IH]; intros st H; simpl in *.
  - destruct post as [|c post]; simpl; [done|].
    destruct (Z.leb_spec (ref_pos st) end_); [lia|done].
  - destruct (ref_pos st <=? end_); [|done].
    destruct (cigar_step _ _ _ c st) as [st1|] eqn:E; simpl; [|done].
    apply IH. apply cigar_step_cursor in E as (ri & fi & Hincs & _ & ->).
    rewrite Hincs in H. lia.
Qed.

Lemma walk_unhandled pre c post st :
  cigar_incs (cigar_op c) = None → ref_pos st + ref_span pre ≤ end_ →
  walk start end_ stride (pre ++ c :: post) st = None.
Proof.
  intros Hc. revert st. induction pre as [|c' pre IH]; intros st H; simpl in *.
  - destruct (Z.leb_spec (ref_pos st) end_); [|lia].
    unfold cigar_step. by rewrite Hc.
  - pose proof (ref_span_nonneg pre).
    destruct (cigar_incs (cigar_op c')) as [[ri fi]|] eqn:Hincs.
    + pose proof (cigar_incs_bounds _ _ _ Hincs).
      destruct (Z.leb_spec (ref_pos st) end_); [|nia].
      destruct (cigar_step _ _ _ c' st) as [st1|] eqn:E; simpl; [|done].
      apply IH. apply cigar_step_cursor in E as (ri' & fi' & Hincs' & _ & ->).
      assert (fi' = fi) as -> by congruence. lia.
    + destruct (Z.leb_spec (ref_pos st) end_); [|lia].
      unfold cigar_step. by rewrite Hincs.
Qed.
End Cursors.

(** *** The coordinate of a reference position *)

Lemma locate_after cig read_pos ref_pos r :
  ref_pos + ref_span cig ≤ r → locate cig read_pos ref_pos r = -1.
Proof.
  revert read_pos ref_pos. induction cig as [|c cig IH]; intros rp fp H; simpl in *; [done|].
  destruct (cigar_incs (cigar_op c)) as [[ri fi]|] eqn:Hincs; [|done].
  pose proof (ref_span_nonneg cig).
  destruct (cigar_incs_cases _ _ _ Hincs) as [_ [-> | ->]]; simpl.
  - apply IH. lia.
  - destruct (Z.ltb_spec r (fp + Z.max 0 (cigar_len c))); [lia|].
    rewrite andb_false_r. apply IH. lia.
Qed.


Lemma locate_app pre c post read_pos ref_pos r read_inc :
  Forall handled pre → cigar_incs (cigar_op c) = Some (read_inc, 1) →
  ref_pos + ref_span pre ≤ r < ref_pos + ref_span pre + cigar_len c →
  locate (pre ++ c :: post) read_pos ref_pos r
  = read_pos + read_span pre + read_inc * (r - (ref_pos + ref_span pre)).
Proof.
  intros Hpre Hc. revert read_pos ref_pos.
  induction Hpre as [|c' pre [[ri fi] Hincs] _ IH]; intros rp fp H; simpl in *.
  - rewrite Hc.
    destruct (Z.leb_spec fp r); [|lia].
    destruct (Z.ltb_spec r (fp + Z.max 0 (cigar_len c))); [|lia]. simpl. lia.
  - rewrite Hincs in *. pose proof (ref_span_nonneg pre).
    rewrite IH by lia.
    destruct (cigar_incs_cases _ _ _ Hincs) as [_ [-> | ->]]; simpl; [lia|].
    destruct (Z.ltb_spec r (fp + Z.max 0 (cigar_len c'))); [lia|].
    rewrite andb_false_r. lia.
Qed.
End LocateFacts.

(** X1: the walk stores in every slot the coordinate that [locate] gives the
    slot's sampled position, and -1 in a slot whose sampled position lies past
    the end of the region. *)
Theorem walker_closed_form record start end_ stride out :
  0 < stride → start ≤ end_ → end_ - start ≤ INT_MAX →
  match_read_to_reference_anchors record start end_ stride = Some out →
  ∀ i, (i < length out)%nat →
    out !! i
    = Some (if Walker.sample_pos start stride i <=? end_
            then Walker.locate (cigar record) 0 (core_pos record)
                   (Walker.sample_pos start stride i)
            else -1).
Proof.
  intros Hs Hr Hm H i Hi. rewrite (walker_length _ _ _ _ _ H) in Hi.
  unfold match_read_to_reference_anchors in H.
  destruct (Walker.run _ _ _ _) as [st|] eqn:Hrun; simplify_eq/=.
  by apply LocateFacts.run_locate.
Qed.


Lemma first_sample_aligned start stride :
  0 < stride → Z.rem start stride = 0 → Walker.first_sample start stride = start.
Proof.
  intros Hs H. apply Z.quot_exact in H; [|lia]. unfold Walker.first_sample.
  generalize dependent (start ÷ stride). intros q ->.
  replace (stride * q + stride - 1) with (q * stride + (stride - 1)) by lia.
  rewrite Z.div_add_l by lia. rewrite (Z.div_small (stride - 1)) by lia. lia.
Qed.

(** X2: a slot whose sampled position lies before the first reference base of
    the alignment, or at or after the last one the operations step over, holds
    -1. *)
Theorem walker_outside_alignment record start end_ stride out i :
  0 < stride → start ≤ end_ → end_ - start ≤ INT_MAX →
  match_read_to_reference_anchors record start end_ stride = Some out →
  (i < length out)%nat →
  Walker.sample_pos start stride i < core_pos record
  ∨ core_pos record + Walker.ref_span (cigar record) ≤ Walker.sample_pos start stride i →
  out !! i = Some (-1).
Proof.
  intros Hs Hr Hm H Hi Hout. rewrite (walker_length _ _ _ _ _ H) in Hi.
  unfold match_read_to_reference_anchors in H.
  destruct (Walker.run _ _ _ _) as [st|] eqn:Hrun; simplify_eq/=.
  rewrite (LocateFacts.run_locate _ _ _ Hs Hr Hm _ _ Hrun i Hi).
  destruct (_ <=? _); [|done]. f_equal.
  destruct Hout; [by apply LocateFacts.locate_before|by apply LocateFacts.locate_after].
Qed.

(** X3: a sampled position of the region inside the reference bases of a
    reference-advancing operation [c] stores the read bases of the operations
    before [c], plus, for an operation that also advances the read, the offset
    of the position in [c]: every position of a deletion stores the coordinate
    of the read base after it. *)
Theorem walker_operation_coordinate record start end_ stride out pre c post read_inc i :
  0 < stride → start ≤ end_ → end_ - start ≤ INT_MAX →
  match_read_to_reference_anchors record start end_ stride = Some out →
  cigar record = pre ++ c :: post → Forall Walker.handled pre →
  Walker.cigar_incs (cigar_op c) = Some (read_inc, 1) →
  let r := Walker.sample_pos start stride i in
  let first := core_pos record + Walker.ref_span pre in
  first ≤ r ∧ r < first + cigar_len c → r ≤ end_ →
  out !! i = Some (Walker.read_span pre + read_inc * (r - first)).
Proof.
  intros Hs Hr Hm H Hcig Hpre Hc r first Hin Hend.
  unfold match_read_to_reference_anchors in H.
  destruct (Walker.run _ _ _ _) as [st|] eqn:Hrun; simplify_eq/=.
  pose proof (LocateFacts.sample_pos_bound _ _ _ Hs Hr Hm i Hend) as Hi.
  rewrite (LocateFacts.run_locate _ _ _ Hs Hr Hm _ _ Hrun i Hi).
  fold r. destruct (Z.leb_spec r end_); [|lia].
  rewrite Hcig, (LocateFacts.locate_app pre c post 0 (core_pos record) r read_inc)
    by done.
  done.
Qed.

(** X4: the operations that follow the point where the reference cursor has
    passed the end of the region are not looked at, whatever they are. *)
Theorem walker_ignores_operations_past_end name pos rev pre post start end_ stride :
  end_ < pos + Walker.ref_span pre →
  match_read_to_reference_anchors (Bam1 name pos rev (pre ++ post)) start end_ stride
  = match_read_to_reference_anchors (Bam1 name pos rev pre) start end_ stride.
Proof.
  intros H. unfold match_read_to_reference_anchors, Walker.run. simpl.
  destruct (stride =? 0); [done|].
  by rewrite LocateFacts.walk_stops.
Qed.

(** X5: an operation that is none of M, =, X, D, N, I, S and H, reached while
    the reference cursor is inside the region or before it, stops the walk. *)
Theorem walker_unhandled_operation record start end_ stride pre c post :
  cigar record = pre ++ c :: post →
  Walker.cigar_incs (cigar_op c) = None →
  core_pos record + Walker.ref_span pre ≤ end_ →
  match_read_to_reference_anchors record start end_ stride = None.
Proof.
  intros Hcig Hc H. unfold match_read_to_reference_anchors, Walker.run.
  destruct (stride =? 0); [done|].
  by rewrite Hcig, LocateFacts.walk_unhandled.
Qed.

(** X6: when [start] is a multiple of [stride], slot [i] holds the coordinate
    of the reference position [start + i * stride]. *)
Theorem walker_aligned_start record start end_ stride out i :
  0 < stride → start ≤ end_ → end_ - start ≤ INT_MAX →
  Z.rem start stride = 0 →
  match_read_to_reference_anchors record start end_ stride = Some out →
  (i < length out)%nat →
  out !! i
  = Some (Walker.locate (cigar record) 0 (core_pos record) (start + Z.of_nat i * stride)).
Proof.
  intros Hs Hr Hm Hal H Hi. rewrite (walker_length _ _ _ _ _ H) in Hi.
  unfold match_read_to_reference_anchors in H.
  destruct (Walker.run _ _ _ _) as [st|] eqn:Hrun; simplify_eq/=.
  rewrite (LocateFacts.run_locate _ _ _ Hs Hr Hm _ _ Hrun i Hi).
  unfold Walker.sample_pos. rewrite first_sample_aligned by done.
  rewrite WalkerFacts.num_anchors_valid in Hi by done.
  pose proof (Z.mul_div_le (end_ - start) stride Hs).
  pose proof (WalkerFacts.quot_bound start end_ stride Hs Hm (end_ - start) ltac:(lia)).
  destruct (Z.leb_spec (start + Z.of_nat i * stride) end_); [done|nia].
Qed.


Lemma walk_empty_region start end_ stride cig st st' :
  end_ < start → Walker.walk start end_ stride cig st = Some st' →
  Walker.out st' = Walker.out st.
Proof.
  intros Hempty. revert st. induction cig as [|c cig IH]; intros st H; simpl in H.
  - by simplify_eq.
  - destruct (Walker.ref_pos st <=? end_); [|by simplify_eq].
    destruct (Walker.cigar_step _ _ _ c st) as [st1|] eqn:E; simpl in H; [|done].
    rewrite (IH _ H). clear H IH. unfold Walker.cigar_step in E.
    destruct (Walker.cigar_incs _) as [[ri fi]|]; simpl in E; [|done].
    revert st E. induction (Z.to_nat (cigar_len c)) as [|n IH]; intros st E; simpl in E.
    + by simplify_eq.
    + destruct (Walker.unit_step _ _ _ _ _ st) as [st2|] eqn:E2; simpl in E; [|done].
      rewrite (IH _ E). unfold Walker.unit_step, Walker.records in E2.
      destruct (Z.leb_spec start (Walker.ref_pos st)),
               (Z.leb_spec (Walker.ref_pos st) end_); simpl in E2; try lia;
        by simplify_eq.
Qed.

(** X8: with [end] before [start] no slot is written: an output, when the walk
    returns one, holds -1 everywhere. *)
Theorem walker_empty_region record start end_ stride out :
  end_ < start →
  match_read_to_reference_anchors record start end_ stride = Some out →
  out = replicate (Z.to_nat (Walker.num_anchors start end_ stride)) (-1).
Proof.
  intros Hempty H. unfold match_read_to_reference_anchors, Walker.run in H.
  destruct (stride =? 0); [done|].
  destruct (Walker.walk _ _ _ _ _) as [st|] eqn:E; simplify_eq/=.
  by rewrite (walk_empty_region _ _ _ _ _ _ Hempty E).
Qed.

Lemma walker_closed_form_witness :
  match_read_to_reference_anchors (deleted_read 1000 20 10 71) 1001 1100 50
  = Some [40; 90]
  ∧ [40; 90] !! 1%nat
    = Some (if Walker.sample_pos 1001 50 1 <=? 1100
            then Walker.locate (cigar (deleted_read 1000 20 10 71)) 0
                   (core_pos (deleted_read 1000 20 10 71)) (Walker.sample_pos 1001 50 1)
            else -1).
Proof.
  split; [vm_compute; reflexivity|].
  apply (walker_closed_form (deleted_read 1000 20 10 71) 1001 1100 50 [40; 90]);
    [lia | lia | unfold INT_MAX; lia | vm_compute; reflexivity | simpl; lia].
Defined.

Lemma walker_outside_alignment_witness :
  match_read_to_reference_anchors (matched_read 1040 20) 1000 1100 50
  = Some [-1; 10; -1]
  ∧ [-1; 10; -1] !! 2%nat = Some (-1).
Proof.
  split; [vm_compute; reflexivity|].
  apply (walker_outside_alignment (matched_read 1040 20) 1000 1100 50 [-1; 10; -1] 2);
    [lia | lia | unfold INT_MAX; lia | vm_compute; reflexivity | simpl; lia
    | right; vm_compute; discriminate].
Defined.

Lemma walker_operation_coordinate_witness :
  match_read_to_reference_anchors (deleted_read 1000 20 10 71) 1000 1100 25
  = Some [0; 20; 40; 65; 90]
  ∧ [0; 20; 40; 65; 90] !! 1%nat = Some 20.
Proof.
  split; [vm_compute; reflexivity|].
  apply (walker_operation_coordinate (deleted_read 1000 20 10 71) 1000 1100 25
           [0; 20; 40; 65; 90] [cigar_word 20 BAM_CMATCH] (cigar_word 10 BAM_CDEL)
           [cigar_word 71 BAM_CMATCH] 0 1);
    [lia | lia | unfold INT_MAX; lia | vm_compute; reflexivity | reflexivity
    | repeat constructor; vm_compute; eauto | reflexivity
    | vm_compute; split; [discriminate | reflexivity] | vm_compute; discriminate].
Defined.

Lemma walker_ignores_operations_past_end_witness :
  match_read_to_reference_anchors
    (Bam1 "read" 1000 false ([cigar_word 101 BAM_CMATCH] ++ [cigar_word 5 BAM_CPAD]))
    1000 1100 50
  = match_read_to_reference_anchors
      (Bam1 "read" 1000 false [cigar_word 101 BAM_CMATCH]) 1000 1100 50.
Proof.
  apply (walker_ignores_operations_past_end "read" 1000 false
           [cigar_word 101 BAM_CMATCH] [cigar_word 5 BAM_CPAD] 1000 1100 50).
  vm_compute. reflexivity.
Defined.

Lemma walker_unhandled_operation_witness :
  match_read_to_reference_anchors (padded_read 1000 10 5 10) 1000 1100 50 = None.
Proof.
  apply (walker_unhandled_operation (padded_read 1000 10 5 10) 1000 1100 50
           [cigar_word 10 BAM_CMATCH] (cigar_word 5 BAM_CPAD) [cigar_word 10 BAM_CMATCH]);
    [reflexivity | reflexivity | vm_compute; discriminate].
Defined.

Lemma walker_aligned_start_witness :
  match_read_to_reference_anchors (deleted_read 1000 20 10 71) 1000 1100 50
  = Some [0; 40; 90]
  ∧ [0; 40; 90] !! 2%nat
    = Some (Walker.locate (cigar (deleted_read 1000 20 10 71)) 0
              (core_pos (deleted_read 1000 20 10 71)) (1000 + Z.of_nat 2 * 50)).
Proof.
  split; [vm_compute; reflexivity|].
  apply (walker_aligned_start (deleted_read 1000 20 10 71) 1000 1100 50 [0; 40; 90] 2);
    [lia | lia | unfold INT_MAX; lia | reflexivity | vm_compute; reflexivity
    | simpl; lia].
Defined.


Lemma walker_empty_region_witness :
  match_read_to_reference_anchors (matched_read 1000 101) 1010 1000 50 = Some [-1]
  ∧ [-1] = replicate (Z.to_nat (Walker.num_anchors 1010 1000 50)) (-1).
Proof.
  split; [vm_compute; reflexivity|].
  apply (walker_empty_region (matched_read 1000 101) 1010 1000 50 [-1]);
    [lia | vm_compute; reflexivity].
Defined.

(** ** Strings *)

Lemma substr_in_bounds (s : cstring) pos n :
  0 ≤ pos ≤ Z.of_nat (length s) → Z.of_nat (length s) < 2 ^ 64 →
  ∃ str pre post, substr s pos n = Some str
                  ∧ s = pre ++ str ++ post ∧ Z.of_nat (length pre) = pos.
Proof.
  intros Hpos Hsize. unfold substr. rewrite (to_size_t_small pos) by lia.
  destruct (Z.ltb_spec (Z.of_nat (length s)) pos) as [|_]; [lia|].
  set (m := Z.to_nat (Z.min _ _)).
  exists (take m (drop (Z.to_nat pos) s)), (take (Z.to_nat pos) s),
         (drop m (drop (Z.to_nat pos) s)).
  split; [done|]. split.
  - by rewrite !take_drop.
  - rewrite length_take. lia.
Qed.

Lemma last_nonempty {A} (l : list A) c : list.last l = Some c → l ≠ [].
Proof. by intros H ->. Qed.

Lemma alt_interval_start K sr do_base_rc k0 k1 :
  0 ≤ (alt_interval K sr do_base_rc k0 k1).1.
Proof.
  unfold alt_interval. simpl.
  destruct (Z.leb_spec 0 (if do_base_rc then flip_k_strand sr k1 else k0)); lia.
Qed.

(** ** Loops *)

Lemma for_range_ind {S : Type} (P : nat → S → Prop) body first n st st' :
  P first st →
  (∀ i s s', (first ≤ i < first + n)%nat → P i s → body i s = Some s' →
             P (Datatypes.S i) s') →
  for_range body first n st = Some st' → P (first + n)%nat st'.
Proof.
  revert first st. induction n as [|n IH]; intros first st H0 Hstep H; simpl in H.
  - simplify_eq. by rewrite Nat.add_0_r.
  - destruct (body first st) as [st1|] eqn:E; simpl in H; [|done].
    replace (first + Datatypes.S n)%nat with (Datatypes.S first + n)%nat by lia.
    apply (IH (Datatypes.S first) st1); [|intros; eapply Hstep; eauto with lia|done].
    apply (Hstep first st st1); [lia|done..].
Qed.

Lemma for_range_total {S : Type} (P : nat → S → Prop) body first n st :
  P first st →
  (∀ i s, (first ≤ i < first + n)%nat → P i s →
          ∃ s', body i s = Some s' ∧ P (Datatypes.S i) s') →
  ∃ st', for_range body first n st = Some st' ∧ P (first + n)%nat st'.
Proof.
  revert first st. induction n as [|n IH]; intros first st H0 Hstep; simpl.
  - exists st. by rewrite Nat.add_0_r.
  - destruct (Hstep first st ltac:(lia) H0) as (st1 & -> & H1). simpl.
    replace (first + Datatypes.S n)%nat with (Datatypes.S first + n)%nat by lia.
    apply IH; [done|]. intros i s Hi. apply Hstep. lia.
Qed.

(** ** The table of alternative sequences *)

Lemma push_alt_length ai s tbl :
  length (push_alt ai s tbl) = (length tbl `max` S ai)%nat.
Proof.
  unfold push_alt. rewrite length_alter.
  destruct (Nat.leb_spec (length tbl) ai); [rewrite length_resize|]; lia.
Qed.

Lemma push_alt_alts ai s tbl j :
  alts (push_alt ai s tbl) j
  = if decide (j = ai) then alts tbl ai ++ [s] else alts tbl j.
Proof.
  unfold push_alt, alts.
  set (tbl' := if (length tbl <=? ai)%nat then _ else _).
  assert (Hsame : ∀ i, default [] (tbl' !! i) = default [] (tbl !! i)).
  { intros i. subst tbl'. destruct (Nat.leb_spec (length tbl) ai); [|done].
    destruct (decide (i < length tbl)%nat).
    - by rewrite lookup_resize by lia.
    - rewrite (lookup_ge_None_2 tbl i) by lia.
      destruct (decide (i < S ai)%nat).
      + by rewrite lookup_resize_new by lia.
      + by rewrite lookup_resize_old by lia. }
  assert (Hlt : (ai < length tbl')%nat).
  { subst tbl'. destruct (Nat.leb_spec (length tbl) ai); [rewrite length_resize|]; lia. }
  rewrite list_lookup_alter. destruct (decide (j = ai)) as [->|Hne].
  - rewrite decide_True by done. rewrite <- Hsame.
    destruct (lookup_lt_is_Some_2 _ _ Hlt) as [x ->]. done.
  - rewrite decide_False by done. apply Hsame.
Qed.

Lemma ltb_S_ne j i : j ≠ i → (j <? S i)%nat = (j <? i)%nat.
Proof. intros. destruct (Nat.ltb_spec j (S i)), (Nat.ltb_spec j i); lia. Qed.

Lemma ltb_S_eq i : (i <? S i)%nat = true.
Proof. apply Nat.ltb_lt. lia. Qed.

(** ** The loop over the sampled positions of one read *)

Section Read.
Variable K : Z.
Variable reverse_complement : cstring → cstring.
Variable unset_anchor : HMMStrandAnchor.
Variables (sr : SquiggleRead) (do_base_rc : bool) (rbfa : list Z).
Variable tbl0 : substring_table.
Hypothesis Hsize : Z.of_nat (length rbfa) < 2 ^ 64.

Local Abbreviation n := (length rbfa).
Local Abbreviation step := (anchor_step K reverse_complement sr do_base_rc rbfa).
Local Abbreviation emitted' := (emitted K reverse_complement sr do_base_rc rbfa).
Local Abbreviation read_inv' :=
  (read_inv K reverse_complement unset_anchor sr do_base_rc rbfa tbl0).
Local Abbreviation stored' := (stored sr do_base_rc).

Lemma not_last_iff ai :
  (ai < n)%nat → (Z.of_nat ai <? to_size_t (Z.of_nat n - 1)) = true ↔ (S ai < n)%nat.
Proof.
  intros Hai. rewrite to_size_t_small by lia. rewrite Z.ltb_lt. lia.
Qed.

Lemma read_inv_init :
  read_inv' 0 (ReadAnchorSet (replicate n unset_anchor) (replicate n unset_anchor), tbl0).
Proof.
  split; simpl.
  - apply length_replicate.
  - apply length_replicate.
  - intros j k s Hj. apply lookup_lt_Some in Hj.
    destruct s; simpl; by rewrite lookup_replicate_2.
  - intros j. by rewrite app_nil_r.
  - intros a. split; [by left|]. intros [?|(aj & k & ? & _)]; [done|lia].
  - intros; lia.
Qed.

Lemma read_inv_skip i st :
  read_inv' i st → rbfa !! i = Some (-1) → read_inv' (S i) st.
Proof.
  intros [Ht Hc Ha Hal Hg He] Hi. split; try done.
  - intros j k s Hj. rewrite (Ha j k s Hj).
    destruct (decide (j = i)) as [->|Hne].
    + simplify_eq. simpl. by rewrite !andb_false_r.
    + by rewrite ltb_S_ne.
  - intros j. rewrite Hal. destruct (decide (j = i)) as [->|Hne].
    + rewrite Nat.ltb_irrefl, ltb_S_eq. unfold emitted. rewrite Hi. simpl.
      by destruct (rbfa !! S i).
    + by rewrite ltb_S_ne.
  - intros a. rewrite Hg. split; intros [?|(aj & k & ? & ? & Hk & ?)]; auto.
    + right. exists aj, k. repeat split; auto with lia.
    + right. exists aj, k. assert (aj ≠ i) by (intros ->; simplify_eq).
      repeat split; auto with lia.
  - intros j k0 k1 Hj Hk0 Hne Hk1. destruct (decide (j = i)) as [->|Hji].
    + simplify_eq.
    + apply (He j); auto with lia.
Qed.

Lemma read_inv_store i ea tbl tbl' k :
  read_inv' i (ea, tbl) → rbfa !! i = Some k → k ≠ -1 →
  ((S i < n)%nat ∧ ∃ k1 s, rbfa !! S i = Some k1
     ∧ alt_sequence K reverse_complement sr do_base_rc k k1 = Some s
     ∧ tbl' = push_alt i s tbl)
  ∨ (¬ (S i < n)%nat ∧ tbl' = tbl) →
  read_inv' (S i) (stored' i k ea, tbl').
Proof.
  intros [Ht Hc Ha Hal Hg He] Hi Hk Hcase. simpl in *.
  pose proof (lookup_lt_Some _ _ _ Hi) as Hin.
  split; simpl.
  - by rewrite length_insert.
  - by rewrite length_insert.
  - intros j k' s Hj. destruct (decide (j = i)) as [->|Hne].
    + assert (k' = k) as -> by congruence. rewrite ltb_S_eq.
      destruct (Z.eqb_spec k (-1)) as [|_]; [done|]. simpl.
      destruct s; simpl; by rewrite list_lookup_insert_eq by lia.
    + rewrite ltb_S_ne by done. rewrite <- (Ha j k' s Hj).
      destruct s; simpl; by rewrite list_lookup_insert_ne.
  - intros j. destruct Hcase as [(Hlt & k1 & s & Hk1 & Hs & ->)|[Hge ->]].
    + rewrite push_alt_alts. destruct (decide (j = i)) as [->|Hne].
      * rewrite Hal, Nat.ltb_irrefl, ltb_S_eq, app_nil_r. unfold emitted.
        rewrite Hi, Hk1, Hs. by destruct (Z.eqb_spec k (-1)).
      * by rewrite ltb_S_ne, Hal.
    + rewrite Hal. destruct (decide (j = i)) as [->|Hne]; [|by rewrite ltb_S_ne].
      rewrite Nat.ltb_irrefl, ltb_S_eq. unfold emitted.
      by rewrite Hi, (lookup_ge_None_2 rbfa (S i)) by lia.
  - intros a. destruct Hcase as [(Hlt & k1 & s & Hk1 & Hs & ->)|[Hge ->]].
    + rewrite push_alt_length. split.
      * intros Ha'. destruct (decide (a < length tbl)%nat) as [Hlt'|Hge'].
        -- apply Hg in Hlt' as [?|(aj & k' & ? & ? & ? & ?)]; [by left|].
           right. exists aj, k'. repeat split; auto with lia.
        -- right. exists i, k. repeat split; auto with lia.
      * intros [Hlt'|(aj & k' & ? & ? & Hk' & ?)].
        -- assert (a < length tbl)%nat by (apply Hg; by left). lia.
        -- destruct (decide (aj = i)) as [->|Hne]; [lia|].
           assert (a < length tbl)%nat; [|lia].
           apply Hg. right. exists aj, k'. repeat split; auto with lia.
    + rewrite Hg. split; intros [?|(aj & k' & ? & ? & Hk' & ?)]; auto.
      * right. exists aj, k'. repeat split; auto with lia.
      * right. exists aj, k'. assert (aj ≠ i) by (intros ->; lia).
        repeat split; auto with lia.
  - intros j k0 k1 Hj Hk0 Hne Hk1. destruct (decide (j = i)) as [->|Hji].
    + destruct Hcase as [(Hlt & k1' & s & Hk1' & Hs & ->)|[Hge ->]].
      * simplify_eq. by rewrite Hs.
      * apply lookup_lt_Some in Hk1. lia.
    + apply (He j); auto with lia.
Qed.

Lemma anchor_step_inv i st st' :
  (i < n)%nat → read_inv' i st → step i st = Some st' → read_inv' (S i) st'.
Proof.
  intros Hi Hinv. destruct st as [ea tbl]. unfold anchor_step.
  destruct (rbfa !! i) as [k0|] eqn:Hk0; simpl; [|done].
  destruct (Z.eqb_spec k0 (-1)) as [->|Hne].
  { intros [= <-]. by apply read_inv_skip. }
  destruct (_ || _); [done|].
  destruct (Z.of_nat i <? _) eqn:Hlast.
  - apply (proj1 (not_last_iff i Hi)) in Hlast.
    destruct (rbfa !! S i) as [k1|] eqn:Hk1; simpl; [|done].
    destruct (alt_sequence _ _ _ _ _ _) as [s|] eqn:Hs; simpl; [|done].
    intros [= <-]. apply (read_inv_store i ea tbl _ k0); try done.
    left. split; [done|]. by exists k1, s.
  - intros [= <-]. apply (read_inv_store i ea tbl _ k0); try done.
    right. split; [|done]. intros Hlt. apply (proj2 (not_last_iff i Hi)) in Hlt. congruence.
Qed.

Lemma anchor_read_inv st' :
  anchor_read K reverse_complement unset_anchor sr do_base_rc rbfa tbl0 = Some st' →
  read_inv' n st'.
Proof.
  unfold anchor_read. intros H.
  apply (for_range_ind read_inv' _ 0%nat n _ _ read_inv_init) in H; [done|].
  intros i s s' Hi. apply anchor_step_inv. lia.
Qed.
End Read.

(** ** Success of the loop over the sampled positions *)

Section ReadTotal.
Variable K : Z.
Variable reverse_complement : cstring → cstring.
Variable unset_anchor : HMMStrandAnchor.
Variables (sr : SquiggleRead) (do_base_rc : bool) (rbfa : list Z).
Variable tbl0 : substring_table.
Hypothesis Hsize : Z.of_nat (length rbfa) < 2 ^ 64.
Hypothesis Hanswers : answers K sr do_base_rc rbfa.

Lemma alt_sequence_total p k k1 :
  rbfa !! p = Some k → k ≠ -1 → rbfa !! S p = Some k1 →
  is_Some (alt_sequence K reverse_complement sr do_base_rc k k1).
Proof.
  intros Hk Hne Hk1. destruct Hanswers as [Hlen Hall].
  destruct (Hall p k Hk Hne) as (_ & _ & Hstart).
  specialize (Hstart k1 Hk1). pose proof (alt_interval_start K sr do_base_rc k k1).
  unfold alt_sequence. destruct (alt_interval K sr do_base_rc k k1) as [s e].
  simpl in *.
  destruct (substr_in_bounds (read_sequence sr) s (e - s + K) ltac:(lia) Hlen)
    as (str & _ & _ & -> & _).
  done.
Qed.

Lemma anchor_step_total i st :
  (i < length rbfa)%nat →
  is_Some (anchor_step K reverse_complement sr do_base_rc rbfa i st).
Proof.
  intros Hi. destruct st as [ea tbl]. unfold anchor_step.
  destruct (lookup_lt_is_Some_2 rbfa i Hi) as [k0 Hk0]. rewrite Hk0. simpl.
  destruct (Z.eqb_spec k0 (-1)) as [|Hne]; [done|].
  destruct Hanswers as [_ Hall]. destruct (Hall i k0 Hk0 Hne) as (Ht & Hc & _).
  apply Z.eqb_neq in Ht, Hc. rewrite Ht, Hc. simpl.
  destruct (Z.of_nat i <? _) eqn:Hlast; [|done].
  apply (proj1 (not_last_iff rbfa Hsize i Hi)) in Hlast.
  destruct (lookup_lt_is_Some_2 rbfa (S i) Hlast) as [k1 Hk1]. rewrite Hk1. simpl.
  destruct (alt_sequence_total i k0 k1 Hk0 Hne Hk1) as [s ->]. done.
Qed.

Lemma anchor_read_total :
  is_Some (anchor_read K reverse_complement unset_anchor sr do_base_rc rbfa tbl0).
Proof.
  unfold anchor_read.
  destruct (for_range_total (λ _ _, True)
              (anchor_step K reverse_complement sr do_base_rc rbfa) 0 (length rbfa)
              (ReadAnchorSet (replicate (length rbfa) unset_anchor)
                             (replicate (length rbfa) unset_anchor), tbl0) I)
    as (st' & -> & _); [|done].
  intros i s Hi _. destruct (anchor_step_total i s ltac:(lia)) as [s' ->]. eauto.
Qed.
End ReadTotal.

(** ** The loop over the records *)

Section Records.
Variable K : Z.
Variable reverse_complement : cstring → cstring.
Variable unset_anchor : HMMStrandAnchor.
Variable load_read : string → SquiggleRead.
Variables (ref_segment : cstring) (start end_ stride : Z).

Local Abbreviation N := (Z.to_nat (Walker.num_anchors start end_ stride)).
Local Abbreviation sampled' := (sampled start end_ stride).
Local Abbreviation read_anchor' := (read_anchor unset_anchor load_read).
Local Abbreviation read_emitted' :=
  (read_emitted K reverse_complement load_read start end_ stride).
Local Abbreviation opens' := (opens start end_ stride).
Local Abbreviation anchored' :=
  (anchored K reverse_complement unset_anchor load_read start end_ stride).
Local Abbreviation extends' :=
  (extends K reverse_complement unset_anchor load_read start end_ stride).
Local Abbreviation process_record' :=
  (process_record K reverse_complement unset_anchor load_read start end_ stride).
Local Abbreviation process_records' :=
  (process_records K reverse_complement unset_anchor load_read start end_ stride).

Lemma process_record_extends record acc acc' :
  process_record' record acc = Some acc' → extends' acc [record] acc'.
Proof.
  unfold process_record. intros H.
  destruct (match_read_to_reference_anchors _ _ _ _) as [rbfa|] eqn:Hw; simpl in H; [|done].
  destruct (anchor_read _ _ _ _ _ _ _) as [[ea tbl]|] eqn:Hr; simpl in H; [|done].
  simplify_eq. pose proof (walker_length _ _ _ _ _ Hw) as Hlen.
  pose proof (num_anchors_bound start end_ stride) as Hb.
  apply anchor_read_inv in Hr as [Ht Hc Ha Hal Hg He]; [|lia].
  simpl in *.
  assert (Hs : sampled' record = rbfa) by (unfold sampled; by rewrite Hw).
  split; simpl.
  - done.
  - exists [ea]. split; [done|]. constructor; [|constructor].
    split; rewrite ?Hs; try done; try congruence.
    + intros j k s Hj. rewrite (Ha j k s Hj).
      apply lookup_lt_Some in Hj as Hlt.
      replace (j <? length rbfa)%nat with true by (symmetry; apply Nat.ltb_lt; lia).
      simpl. unfold read_anchor. by destruct (k =? -1).
    + intros j k0 k1 Hk0 Hne Hk1. apply (He j); try done.
      apply lookup_lt_Some in Hk0. lia.
  - intros j. rewrite Hal. simpl. rewrite app_nil_r. f_equal.
    unfold read_emitted. rewrite Hs.
    destruct (Nat.ltb_spec j (length rbfa)) as [|Hge]; [done|].
    unfold emitted. by rewrite (lookup_ge_None_2 rbfa j) by lia.
  - intros a. rewrite Hg. unfold opens. split.
    + intros [?|(aj & k & [? ?] & ? & ? & ?)]; [by left|right].
      exists record, aj. rewrite list_elem_of_singleton, Hs.
      repeat split; eauto with lia.
    + intros [?|(r & aj & Hin & ? & ? & k & Hk & ?)]; [by left|right].
      apply list_elem_of_singleton in Hin as ->. rewrite Hs in Hk.
      apply lookup_lt_Some in Hk as Hlt.
      exists aj, k. repeat split; eauto with lia.
Qed.

Lemma extends_nil acc : extends' acc [] acc.
Proof.
  split; simpl.
  - by rewrite app_nil_r.
  - exists []. by rewrite app_nil_r.
  - intros j. by rewrite app_nil_r.
  - intros a. split; [by left|]. intros [?|(r & aj & Hin & _)]; [done|].
    by apply elem_of_nil in Hin.
Qed.

Lemma extends_cons acc0 acc1 acc record records :
  extends' acc0 [record] acc1 → extends' acc1 records acc →
  extends' acc0 (record :: records) acc.
Proof.
  intros [Hr1 (ras1 & Ha1 & Hf1) Hal1 Hg1] [Hr Hra Hal Hg].
  destruct Hra as (ras & Ha & Hf).
  split.
  - rewrite Hr, Hr1. simpl. by rewrite <- app_assoc.
  - exists (ras1 ++ ras). split.
    + by rewrite Ha, Ha1, <- app_assoc.
    + change (record :: records) with ([record] ++ records). by apply Forall2_app.
  - intros j. rewrite Hal, Hal1. simpl. by rewrite app_nil_r, <- app_assoc.
  - intros a. rewrite Hg, Hg1. split.
    + intros [[?|(r & aj & Hin & ?)]|(r & aj & Hin & ?)]; [by left|right..].
      * exists r, aj. apply list_elem_of_singleton in Hin as ->.
        split; [apply elem_of_cons; by left|done].
      * exists r, aj. split; [apply elem_of_cons; by right|done].
    + intros [?|(r & aj & Hin & ?)]; [left; by left|].
      apply elem_of_cons in Hin as [->|Hin].
      * left. right. exists record, aj. by rewrite list_elem_of_singleton.
      * right. by exists r, aj.
Qed.

Lemma process_records_extends records acc0 acc :
  process_records' records acc0 = Some acc → extends' acc0 records acc.
Proof.
  revert acc0. induction records as [|record records IH]; intros acc0 H; simpl in H.
  - simplify_eq. apply extends_nil.
  - destruct (process_record' record acc0) as [acc1|] eqn:E; simpl in H; [|done].
    eapply extends_cons; eauto using process_record_extends.
Qed.
End Records.

(** ** Columns *)

Lemma gather_anchors_spec ras ai l :
  gather_anchors ras ai = Some l →
  length l = (2 * length ras)%nat
  ∧ ∀ r ea, ras !! r = Some ea →
      is_Some (template_anchors ea !! ai)
      ∧ l !! (2 * r)%nat = template_anchors ea !! ai
      ∧ l !! (2 * r + 1)%nat = complement_anchors ea !! ai.
Proof.
  revert l. induction ras as [|x ras IH]; intros l H; simpl in H.
  - simplify_eq. split; [done|]. intros r ea Hr. by rewrite lookup_nil in Hr.
  - destruct (template_anchors x !! ai) as [t|] eqn:Ht; simpl in H; [|done].
    destruct (complement_anchors x !! ai) as [c|] eqn:Hc; simpl in H; [|done].
    destruct (gather_anchors ras ai) as [tl|] eqn:Htl; simpl in H; [|done].
    simplify_eq. destruct (IH tl eq_refl) as [Hlen Hlook]. split; [simpl; lia|].
    intros [|r] ea Hr; simpl in Hr.
    + simplify_eq. rewrite Ht. simpl. eauto.
    + destruct (Hlook r ea Hr) as (? & ? & ?).
      replace (2 * S r)%nat with (S (S (2 * r))) by lia.
      replace (S (S (2 * r)) + 1)%nat with (S (S (2 * r + 1))) by lia. done.
Qed.

Lemma gather_anchors_total ras ai :
  Forall (λ ea, (ai < length (template_anchors ea))%nat
                ∧ (ai < length (complement_anchors ea))%nat) ras →
  is_Some (gather_anchors ras ai).
Proof.
  induction 1 as [|ea ras [Ht Hc] _ IH]; simpl; [done|].
  destruct (lookup_lt_is_Some_2 _ _ Ht) as [t ->].
  destruct (lookup_lt_is_Some_2 _ _ Hc) as [c ->].
  destruct IH as [tl ->]. done.
Qed.

Lemma column_base_sequence_nonempty K ref_segment stride p bs :
  column_base_sequence K ref_segment stride p = Some bs → bs ≠ [].
Proof.
  unfold column_base_sequence. intros H.
  destruct (string_at _ _ _) as [s|]; simpl in H; [|done].
  destruct (list.last s) as [c|] eqn:Hlast; simpl in H; [|done].
  destruct (Ascii.eqb c NUL); [done|]. simplify_eq. by apply last_nonempty in Hlast.
Qed.

Section Sequence.
Variable K : Z.
Variables (ref_segment : cstring) (stride : Z).
Hypothesis HK : 0 ≤ K ≤ INT_MAX.
Hypothesis Hstride : 0 < stride ≤ INT_MAX.
Hypothesis Hfetched : fetched_len ref_segment ≤ INT_MAX.

Lemma span_start_valid p :
  Z.of_nat p < 2 ^ 32 → span_start stride p = Z.of_nat p * stride.
Proof.
  intros Hp. unfold span_start, INT_MAX in *. apply to_size_t_small. nia.
Qed.

Local Abbreviation untruncated' := (untruncated K ref_segment stride).

Lemma base_length_untruncated p :
  Z.of_nat p < 2 ^ 32 → untruncated' p → base_length K ref_segment stride p = stride + K.
Proof.
  intros Hp Hu. unfold base_length, untruncated, fetched_len, INT_MAX in *.
  rewrite !to_size_t_small by nia.
  destruct (Z.ltb_spec (Z.of_nat (length ref_segment))
              (Z.of_nat p * stride + (stride + K))); [lia|done].
Qed.

Lemma column_base_sequence_spec p bs :
  Z.of_nat p < 2 ^ 32 →
  column_base_sequence K ref_segment stride p = Some bs →
  bs = take (Z.to_nat (stride + K)) (drop (Z.to_nat (Z.of_nat p * stride)) ref_segment)
  ∧ bs ≠ [].
Proof.
  intros Hp. unfold column_base_sequence, string_at.
  rewrite span_start_valid by done.
  set (off := Z.of_nat p * stride).
  pose proof (to_size_t_bound (base_length K ref_segment stride p)) as Hn.
  assert (Hoff : 0 ≤ off < 2 ^ 63) by (unfold INT_MAX in *; subst off; nia).
  destruct (Z.leb_spec (off + to_size_t (base_length K ref_segment stride p))
              (Z.of_nat (length ref_segment) + 1)) as [Hin|]; simpl; [|done].
  destruct (list.last _) as [c|] eqn:Hlast; simpl; [|done].
  destruct (Ascii.eqb c NUL); [done|]. intros [= <-].
  apply last_nonempty in Hlast. split; [|done].
  revert Hin Hlast Hn. unfold base_length, fetched_len, INT_MAX in *.
  rewrite (to_size_t_small (Z.of_nat (length ref_segment))) by lia.
  rewrite (to_size_t_small (Z.of_nat p * stride + _)) by (fold off; lia).
  fold off.
  destruct (Z.ltb_spec (Z.of_nat (length ref_segment)) (off + (stride + K))) as [Hcut|Hfit].
  - destruct (decide (off ≤ Z.of_nat (length ref_segment))) as [Hle|Hgt].
    + rewrite (to_size_t_small (_ - off)), to_int_small, to_size_t_small by lia.
      intros _ _ _. rewrite drop_app_le by lia.
      rewrite take_app_length' by (rewrite length_drop; lia).
      rewrite take_ge by (rewrite length_drop; lia). done.
    + intros Hin Hlast Hn.
      replace (to_size_t _) with 0 in Hlast by lia. done.
  - rewrite to_size_t_small by lia. intros _ _ _.
    rewrite drop_app_le by lia. rewrite take_app_le by (rewrite length_drop; lia).
    done.
Qed.

Lemma overlap_untruncated p :
  Z.of_nat p < 2 ^ 32 - 1 → untruncated' p → overlap K ref_segment stride p = K.
Proof.
  intros Hp Hu. unfold overlap, span_end.
  rewrite base_length_untruncated by (done || lia).
  rewrite !span_start_valid by lia.
  rewrite to_size_t_small by (unfold INT_MAX in *; lia). lia.
Qed.

Lemma base_sequences_chain p bs bs' :
  Z.of_nat p < 2 ^ 32 - 1 →
  column_base_sequence K ref_segment stride p = Some bs →
  column_base_sequence K ref_segment stride (S p) = Some bs' →
  drop (Z.to_nat stride) bs = take (Z.to_nat K) bs'.
Proof.
  intros Hp H H'.
  apply column_base_sequence_spec in H as [-> _]; [|lia].
  apply column_base_sequence_spec in H' as [-> _]; [|lia].
  rewrite take_take, skipn_firstn_comm, drop_drop.
  f_equal; [lia|]. f_equal. lia.
Qed.
End Sequence.

(** ** The region *)

Section RegionFacts.
Variable K : Z.
Variable reverse_complement : cstring → cstring.
Variable unset_anchor : HMMStrandAnchor.
Variable load_read : string → SquiggleRead.
Variables (ref_segment : cstring) (start end_ stride : Z).

Local Abbreviation N := (Z.to_nat (Walker.num_anchors start end_ stride)).
Local Abbreviation sampled' := (sampled start end_ stride).
Local Abbreviation read_anchor' := (read_anchor unset_anchor load_read).
Local Abbreviation read_emitted' :=
  (read_emitted K reverse_complement load_read start end_ stride).
Local Abbreviation process_record' :=
  (process_record K reverse_complement unset_anchor load_read start end_ stride).
Local Abbreviation process_records' :=
  (process_records K reverse_complement unset_anchor load_read start end_ stride).
Local Abbreviation build_column' := (build_column K ref_segment stride).
Local Abbreviation transpose' := (transpose K ref_segment stride).
Local Abbreviation build' :=
  (build_input_for_region K reverse_complement unset_anchor load_read
     ref_segment start end_ stride).
Local Abbreviation extends' :=
  (extends K reverse_complement unset_anchor load_read start end_ stride).
Local Abbreviation anchored' :=
  (anchored K reverse_complement unset_anchor load_read start end_ stride).
Local Abbreviation opens' := (opens start end_ stride).
Local Abbreviation empty := (Loaded [] [] []).

Lemma N_bound : Z.of_nat N < 2 ^ 32.
Proof. pose proof (num_anchors_bound start end_ stride). lia. Qed.

Lemma is_last_iff p :
  (p < N)%nat → (Z.of_nat p =? to_size_t (Z.of_nat N - 1)) = true ↔ p = (N - 1)%nat.
Proof.
  intros Hp. pose proof N_bound. rewrite to_size_t_small by lia.
  rewrite Z.eqb_eq. lia.
Qed.

(** The columns come from [build_column], one per sampled position. *)
Lemma transpose_columns records acc cols :
  extends' empty records acc → transpose' acc = Some cols →
  records ≠ [] ∧ length cols = N
  ∧ ∀ p col, cols !! p = Some col →
      (p < N)%nat ∧ build_column' acc N (length records * 2) p = Some col.
Proof.
  intros [_ (ras & Hras & Hf) _ _] H. simpl in Hras. unfold transpose in H.
  rewrite Hras in H. pose proof (Forall2_length _ _ _ Hf) as Hlen.
  destruct ras as [|front ras]; [done|]. simpl in H.
  destruct (list.last (front :: ras)) as [back|]; simpl in H; [|done].
  destruct records as [|record records]; [by apply Forall2_nil_cons_inv in Hf|].
  apply Forall2_cons_1 in Hf as [Hfront _].
  rewrite (an_template _ _ _ _ _ _ _ _ _ Hfront) in H.
  destruct (N =? _)%nat; [|done].
  split; [done|]. split.
  - apply length_mapM in H. by rewrite length_seq in H.
  - intros p col Hp. apply mapM_Some in H.
    destruct (Forall2_lookup_r _ _ _ _ _ H Hp) as (p' & Hp' & Hcol).
    apply lookup_seq in Hp' as [-> ?]. split; [done|].
    rewrite Hlen. exact Hcol.
Qed.

Lemma build_inv records ret :
  build' records = Some ret →
  ∃ acc, process_records' records empty = Some acc
         ∧ extends' empty records acc
         ∧ transpose' acc = Some (anchored_columns ret)
         ∧ reads ret = loaded_reads acc.
Proof.
  unfold build_input_for_region. intros H.
  destruct (process_records' records empty) as [acc|] eqn:Hacc; simpl in H; [|done].
  destruct (transpose' acc) as [cols|] eqn:Hcols; simpl in H; [|done].
  simplify_eq. exists acc. simpl. eauto using process_records_extends.
Qed.

Lemma build_column_inv records acc p col :
  extends' empty records acc → (p < N)%nat →
  build_column' acc N (length records * 2) p = Some col →
  length (anchors col) = (2 * length records)%nat
  ∧ (∀ r record, records !! r = Some record →
       ∃ k, sampled' record !! p = Some k
            ∧ anchors col !! (2 * r)%nat = Some (read_anchor' record T_IDX k)
            ∧ anchors col !! (2 * r + 1)%nat = Some (read_anchor' record C_IDX k))
  ∧ (p = (N - 1)%nat → base_sequence col = [] ∧ alt_sequences col = [])
  ∧ (p ≠ (N - 1)%nat →
       column_base_sequence K ref_segment stride p = Some (base_sequence col)
       ∧ read_substrings acc !! p = Some (alt_sequences col)
       ∧ alt_sequences col = concat ((λ record, read_emitted' record p) <$> records)).
Proof.
  intros [_ (ras & Hras & Hf) Hal _] Hp H. simpl in Hras, Hal.
  unfold build_column in H. rewrite Hras in H.
  destruct (gather_anchors ras p) as [l|] eqn:Hl; simpl in H; [|done].
  apply gather_anchors_spec in Hl as [Hlen Hl].
  rewrite Hlen, (Forall2_length _ _ _ Hf), (Nat.mul_comm 2), Nat.eqb_refl in H.
  simpl in H.
  assert (Hanchors : anchors col = l).
  { destruct (_ =? _); [by simplify_eq|].
    destruct (column_base_sequence _ _ _ _); simpl in H; [|done].
    destruct (read_substrings acc !! p); simpl in H; by simplify_eq. }
  split; [|split; [|split]].
  - rewrite Hanchors, Hlen. by rewrite (Forall2_length _ _ _ Hf).
  - intros r record Hr.
    destruct (Forall2_lookup_l _ _ _ _ _ Hf Hr) as (ea & Hea & Han).
    destruct (Hl r ea Hea) as (_ & Ht & Hc).
    assert (is_Some (sampled' record !! p)) as [k Hk].
    { apply lookup_lt_is_Some. rewrite (an_sampled _ _ _ _ _ _ _ _ _ Han). lia. }
    exists k. rewrite Hanchors, Ht, Hc. split; [done|].
    split; [apply (an_anchor _ _ _ _ _ _ _ _ _ Han p k T_IDX Hk)
           |apply (an_anchor _ _ _ _ _ _ _ _ _ Han p k C_IDX Hk)].
  - intros Hlast. apply (proj2 (is_last_iff p Hp)) in Hlast. rewrite Hlast in H.
    injection H as <-. by split.
  - intros Hlast. destruct (_ =? _) eqn:E; [by apply (proj1 (is_last_iff p Hp)) in E|].
    destruct (column_base_sequence _ _ _ _) as [bs|]; simpl in H; [|done].
    destruct (read_substrings acc !! p) as [al|] eqn:Hp'; simpl in H; [|done].
    injection H as <-. simpl. split; [done|]. split; [done|].
    specialize (Hal p). unfold alts in Hal. by rewrite Hp' in Hal.
Qed.

(** A record that is processed contributes one string to the interval
    after position [p] when its coordinate at [p] is defined and [p] is not
    the last position, and nothing otherwise; the coordinate at [p + 1] plays
    no part. *)
Lemma emission_condition record ea p :
  anchored' record ea →
  (opens' record p → ∃ s, read_emitted' record p = [s])
  ∧ (¬ opens' record p → read_emitted' record p = []).
Proof.
  intros Han. pose proof (an_sampled _ _ _ _ _ _ _ _ _ Han) as Hlen.
  unfold opens, read_emitted, emitted. split.
  - intros (Hlt & k & Hk & Hne). rewrite Hk.
    destruct (lookup_lt_is_Some_2 (sampled' record) (S p) ltac:(lia)) as [k1 Hk1].
    rewrite Hk1. destruct (Z.eqb_spec k (-1)) as [|_]; [done|].
    destruct (an_extracted _ _ _ _ _ _ _ _ _ Han p k k1 Hk Hne Hk1) as [s ->].
    by exists s.
  - intros Hno. destruct (sampled' record !! p) as [k|] eqn:Hk; [|done].
    destruct (sampled' record !! S p) as [k1|] eqn:Hk1; [|done].
    destruct (Z.eqb_spec k (-1)) as [|Hne]; [done|]. destruct Hno.
    apply lookup_lt_Some in Hk1. split; [lia|]. by exists k.
Qed.

Lemma build_reads records ret :
  build' records = Some ret → reads ret = (load_read ∘ qname <$> records).
Proof.
  intros H. destruct (build_inv _ _ H) as (acc & _ & [Hr _ _ _] & _ & ->).
  by rewrite Hr.
Qed.

(** C5: the transposition yields [N] columns, [N] being the length of the
    walk's output for every record; the anchors of a column are, for the
    records in processing order, the template anchor followed by the
    complement anchor, [2 * reads] in all; the last column has anchors and
    empty sequence fields, the columns before it have a non-empty
    reference sub-sequence. *)
Theorem transposed_columns records ret :
  build' records = Some ret →
  reads ret = (load_read ∘ qname <$> records)
  ∧ (∀ record, record ∈ records →
       match_read_to_reference_anchors record start end_ stride = Some (sampled' record)
       ∧ length (sampled' record) = N)
  ∧ length (anchored_columns ret) = N
  ∧ ∀ p col, anchored_columns ret !! p = Some col →
      length (anchors col) = (2 * length (reads ret))%nat
      ∧ (∀ r record, records !! r = Some record →
           ∃ k, sampled' record !! p = Some k
                ∧ anchors col !! (2 * r)%nat = Some (read_anchor' record T_IDX k)
                ∧ anchors col !! (2 * r + 1)%nat = Some (read_anchor' record C_IDX k))
      ∧ (p = (N - 1)%nat →
           anchors col ≠ [] ∧ base_sequence col = [] ∧ alt_sequences col = [])
      ∧ ((p < N - 1)%nat → base_sequence col ≠ []).
Proof.
  intros H. pose proof (build_reads _ _ H) as Hreads.
  destruct (build_inv _ _ H) as (acc & _ & Hext & Hcols & _).
  destruct (transpose_columns _ _ _ Hext Hcols) as (Hne & Hlen & Hcol).
  split; [done|]. split; [|split; [done|]].
  - intros record Hin. destruct Hext as [_ (ras & _ & Hf) _ _].
    apply list_elem_of_lookup in Hin as [r Hr].
    destruct (Forall2_lookup_l _ _ _ _ _ Hf Hr) as (ea & _ & Han).
    split; [apply (an_walk _ _ _ _ _ _ _ _ _ Han)|apply (an_sampled _ _ _ _ _ _ _ _ _ Han)].
  - intros p col Hp. destruct (Hcol p col Hp) as [HpN Hbuild].
    destruct (build_column_inv _ _ _ _ Hext HpN Hbuild) as (Hanc & Hord & Hlast & Hseq).
    rewrite Hreads, length_fmap. split; [done|]. split; [done|]. split.
    + intros ->. destruct (Hlast eq_refl) as [-> ->]. split; [|done].
      intros Hnil. rewrite Hnil in Hanc. destruct records; [done|simpl in Hanc; lia].
    + intros Hlt. destruct Hseq as (Hbs & _); [lia|].
      apply column_base_sequence_nonempty in Hbs. done.
Qed.

(** C6, as amended: for [p < N - 1] the reference sub-sequence of column
    [p] is the fetched reference from offset [p * stride], at most
    [stride + K] characters of it; a column that is not truncated shares
    exactly [K] reference offsets with the next one, and what follows the
    first [stride] characters of a column is the beginning of the next
    column's sub-sequence. *)
Theorem reference_subsequences records ret p col :
  0 ≤ K ≤ INT_MAX → 0 < stride ≤ INT_MAX → fetched_len ref_segment ≤ INT_MAX →
  build' records = Some ret →
  anchored_columns ret !! p = Some col → (p < N - 1)%nat →
  base_sequence col
  = take (Z.to_nat (stride + K)) (drop (Z.to_nat (Z.of_nat p * stride)) ref_segment)
  ∧ (untruncated K ref_segment stride p →
       overlap K ref_segment stride p = K
       ∧ Z.of_nat (length (base_sequence col)) = stride + K
       ∧ Z.of_nat (length (drop (Z.to_nat stride) (base_sequence col))) = K)
  ∧ (∀ col', (S p < N - 1)%nat → anchored_columns ret !! S p = Some col' →
       drop (Z.to_nat stride) (base_sequence col)
       = take (Z.to_nat K) (base_sequence col')).
Proof.
  intros HK Hstride Hfetched H Hp Hlt. pose proof N_bound as HN.
  destruct (build_inv _ _ H) as (acc & _ & Hext & Hcols & _).
  destruct (transpose_columns _ _ _ Hext Hcols) as (_ & _ & Hcol).
  destruct (Hcol p col Hp) as [HpN Hbuild].
  destruct (build_column_inv _ _ _ _ Hext HpN Hbuild) as (_ & _ & _ & Hseq).
  destruct Hseq as (Hbs & _); [lia|].
  destruct (column_base_sequence_spec K ref_segment stride HK Hstride Hfetched
              p _ ltac:(lia) Hbs) as [Heq _].
  split; [done|]. split.
  - intros Hu. split; [apply overlap_untruncated; (done || lia)|].
    unfold untruncated, fetched_len in Hu.
    rewrite length_drop, Heq, length_take, length_drop. lia.
  - intros col' Hlt' Hp'. destruct (Hcol (S p) col' Hp') as [HpN' Hbuild'].
    destruct (build_column_inv _ _ _ _ Hext HpN' Hbuild') as (_ & _ & _ & Hseq').
    destruct Hseq' as (Hbs' & _); [lia|].
    apply (base_sequences_chain K ref_segment stride HK Hstride Hfetched p);
      (done || lia).
Qed.

(** C7: for a record flagged as reverse, every defined coordinate goes
    through [flip_k_strand] before the event lookup of both strands; the
    template anchor carries the record's flag and the complement anchor
    its negation; the string pushed for an interval is the reverse
    complement of the substring between the flipped, swapped and clamped
    coordinates. *)
Theorem reverse_read_anchors record acc acc' :
  process_record' record acc = Some acc' → is_rev record = true →
  let sr := load_read (qname record) in
  match_read_to_reference_anchors record start end_ stride = Some (sampled' record)
  ∧ ∃ ea, read_anchors acc' = read_anchors acc ++ [ea]
    ∧ ∀ p k, sampled' record !! p = Some k → k ≠ -1 →
        template_anchors ea !! p
        = Some (Anchor (get_closest_event_to sr (flip_k_strand sr k) T_IDX)
                       (is_rev record))
        ∧ complement_anchors ea !! p
          = Some (Anchor (get_closest_event_to sr (flip_k_strand sr k) C_IDX)
                         (negb (is_rev record)))
        ∧ ∀ k1, sampled' record !! S p = Some k1 →
            ∃ str,
              substr (read_sequence sr) (alt_interval K sr true k k1).1
                ((alt_interval K sr true k k1).2 - (alt_interval K sr true k k1).1 + K)
              = Some str
              ∧ alts (read_substrings acc') p
                = alts (read_substrings acc) p ++ [reverse_complement str].
Proof.
  intros H Hrev sr. apply process_record_extends in H as [_ (ras & Hras & Hf) Hal _].
  apply Forall2_cons_inv_l in Hf as (ea & ras' & Han & Hnil & ->).
  apply Forall2_nil_inv_l in Hnil as ->.
  split; [apply (an_walk _ _ _ _ _ _ _ _ _ Han)|].
  exists ea. split; [done|]. intros p k Hk Hne.
  pose proof (an_anchor _ _ _ _ _ _ _ _ _ Han p k T_IDX Hk) as Ht.
  pose proof (an_anchor _ _ _ _ _ _ _ _ _ Han p k C_IDX Hk) as Hc.
  simpl in Ht, Hc. unfold read_anchor, event_anchor in Ht, Hc.
  destruct (Z.eqb_spec k (-1)) as [|_]; [done|]. rewrite Hrev in Ht, Hc |- *.
  split; [done|]. split; [done|]. intros k1 Hk1.
  destruct (an_extracted _ _ _ _ _ _ _ _ _ Han p k k1 Hk Hne Hk1) as [s Hs].
  specialize (Hal p). simpl in Hal. rewrite app_nil_r in Hal.
  unfold read_emitted, emitted in Hal. rewrite Hk, Hk1, Hrev in Hal.
  destruct (Z.eqb_spec k (-1)) as [|_]; [done|].
  rewrite Hrev in Hs. rewrite Hs in Hal. simpl in Hal.
  unfold alt_sequence in Hs. fold sr in Hs.
  destruct (alt_interval K sr true k k1) as [s0 e0]; simpl in *.
  destruct (substr _ _ _) as [str|]; simpl in Hs; [|done].
  exists str. split; [done|]. by simplify_eq.
Qed.

(** C8: with no record the build fails, and a build that succeeds holds
    at least one read. *)
Theorem empty_region_fails :
  build' [] = None
  ∧ ∀ records ret, build' records = Some ret → records ≠ [] ∧ reads ret ≠ [].
Proof.
  split; [done|]. intros records ret H.
  rewrite (build_reads _ _ H). by destruct records.
Qed.

(** C9: the table [read_substrings] reaches index [a] exactly when some
    record has a defined coordinate at a sampled position at or after [a]
    that is not the last one; so, for [N >= 2], every index below [N - 1]
    is in range exactly when some record has a defined coordinate at
    position [N - 2], and with every record unmapped there the lookup at
    [N - 2] is out of range and the build fails. *)
Theorem substring_table_bounds records acc :
  process_records' records empty = Some acc → (2 ≤ N)%nat →
  (∀ a, (a < length (read_substrings acc))%nat ↔
        ∃ record aj, record ∈ records ∧ (a ≤ aj)%nat ∧ opens' record aj)
  ∧ ((∀ p, (p < N - 1)%nat → is_Some (read_substrings acc !! p)) ↔
     ∃ record, record ∈ records ∧ opens' record (N - 2)%nat)
  ∧ ((∀ record, record ∈ records → sampled' record !! (N - 2)%nat = Some (-1)) →
     read_substrings acc !! (N - 2)%nat = None ∧ build' records = None).
Proof.
  intros Hacc HN. pose proof (process_records_extends _ _ _ _ _ _ _ _ _ _ Hacc) as Hext.
  assert (Hgrown : ∀ a, (a < length (read_substrings acc))%nat ↔
            ∃ record aj, record ∈ records ∧ (a ≤ aj)%nat ∧ opens' record aj).
  { intros a. destruct Hext as [_ _ _ Hg]. rewrite Hg. simpl. split.
    - intros [?|?]; [lia|done].
    - intros ?. by right. }
  assert (Hlast : (N - 2 < length (read_substrings acc))%nat ↔
            ∃ record, record ∈ records ∧ opens' record (N - 2)%nat).
  { rewrite Hgrown. split.
    - intros (record & aj & Hin & Hle & Hop). exists record. split; [done|].
      destruct Hop as [Hlt Hk]. by replace (N - 2)%nat with aj by lia.
    - intros (record & Hin & Hop). by exists record, (N - 2)%nat. }
  split; [done|]. split.
  - rewrite <- Hlast. split.
    + intros Hall. apply lookup_lt_is_Some. apply Hall. lia.
    + intros Hlt p Hp. apply lookup_lt_is_Some. lia.
  - intros Hun.
    assert (Hout : read_substrings acc !! (N - 2)%nat = None).
    { apply lookup_ge_None. destruct (decide (N - 2 < length (read_substrings acc))%nat)
        as [Hlt|]; [|lia].
      apply Hlast in Hlt as (record & Hin & _ & k & Hk & Hne).
      rewrite (Hun record Hin) in Hk. by simplify_eq. }
    split; [done|]. unfold build_input_for_region. rewrite Hacc. simpl.
    destruct (transpose' acc) as [cols|] eqn:Hcols; [|done]. exfalso.
    destruct (transpose_columns _ _ _ Hext Hcols) as (_ & Hlen & Hcol).
    destruct (lookup_lt_is_Some_2 cols (N - 2)%nat ltac:(lia)) as [col Hp].
    destruct (Hcol _ _ Hp) as [HpN Hbuild].
    destruct (build_column_inv _ _ _ _ Hext HpN Hbuild) as (_ & _ & _ & Hseq).
    destruct Hseq as (_ & Hin & _); [lia|]. congruence.
Qed.
End RegionFacts.

(** ** Success of the build *)

Section Total.
Variable K : Z.
Variable reverse_complement : cstring → cstring.
Variable unset_anchor : HMMStrandAnchor.
Variable load_read : string → SquiggleRead.
Variables (ref_segment : cstring) (start end_ stride : Z).
Hypothesis Hregion : start ≤ end_.
Hypothesis Hstride : 0 < stride ≤ INT_MAX.
Hypothesis Hrange : end_ - start ≤ INT_MAX.
Hypothesis HK : 0 ≤ K ≤ INT_MAX.
Hypothesis Hfetched : fetched_len ref_segment ≤ INT_MAX.
Hypothesis Hnul : NUL ∉ ref_segment.

Local Abbreviation N := (Z.to_nat (Walker.num_anchors start end_ stride)).
Local Abbreviation sampled' := (sampled start end_ stride).
Local Abbreviation process_record' :=
  (process_record K reverse_complement unset_anchor load_read start end_ stride).
Local Abbreviation process_records' :=
  (process_records K reverse_complement unset_anchor load_read start end_ stride).
Local Abbreviation build' :=
  (build_input_for_region K reverse_complement unset_anchor load_read
     ref_segment start end_ stride).
Local Abbreviation extends' :=
  (extends K reverse_complement unset_anchor load_read start end_ stride).
Local Abbreviation opens' := (opens start end_ stride).

Local Abbreviation processable' :=
  (processable K load_read start end_ stride).

Lemma process_record_total record acc :
  processable' record → is_Some (process_record' record acc).
Proof.
  intros [Hcig Hans]. unfold process_record.
  destruct (match_read_total record start end_ stride Hregion ltac:(lia) Hrange Hcig)
    as [rbfa Hrbfa].
  rewrite Hrbfa. simpl.
  unfold sampled in Hans. rewrite Hrbfa in Hans. simpl in Hans.
  pose proof (walker_length _ _ _ _ _ Hrbfa) as Hlen.
  pose proof (num_anchors_bound start end_ stride).
  destruct (anchor_read_total K reverse_complement unset_anchor
              (load_read (qname record)) (is_rev record) rbfa
              (read_substrings acc) ltac:(lia) Hans) as [[ea tbl] ->].
  done.
Qed.

Lemma process_records_total records acc :
  Forall processable' records → is_Some (process_records' records acc).
Proof.
  intros H. revert acc. induction H as [|record records Hr _ IH]; intros acc; simpl.
  - done.
  - destruct (process_record_total record acc Hr) as [acc1 ->]. simpl. apply IH.
Qed.

Lemma column_base_sequence_total p :
  Z.of_nat p < 2 ^ 32 → Z.of_nat p * stride < fetched_len ref_segment →
  is_Some (column_base_sequence K ref_segment stride p).
Proof.
  intros Hp Hoff. unfold column_base_sequence, string_at.
  rewrite (span_start_valid stride Hstride p Hp).
  set (off := Z.of_nat p * stride) in *.
  assert (0 ≤ off) by (subst off; lia).
  assert (Hbl : to_size_t (base_length K ref_segment stride p)
                = Z.min (stride + K) (fetched_len ref_segment - off)).
  { unfold base_length, fetched_len, INT_MAX in *.
    rewrite (to_size_t_small (Z.of_nat (length ref_segment))) by lia.
    rewrite (to_size_t_small (Z.of_nat p * stride + _)) by (fold off; lia).
    fold off. destruct (Z.ltb_spec (Z.of_nat (length ref_segment)) (off + (stride + K))).
    - rewrite (to_size_t_small (_ - off)), to_int_small, to_size_t_small by lia. lia.
    - rewrite to_size_t_small by lia. lia. }
  rewrite Hbl. unfold fetched_len in *.
  destruct (Z.leb_spec (off + Z.min (stride + K) (Z.of_nat (length ref_segment) - off))
              (Z.of_nat (length ref_segment) + 1)) as [_|]; [|lia]. simpl.
  rewrite drop_app_le by lia. rewrite take_app_le by (rewrite length_drop; lia).
  set (bs := take _ _).
  assert (Hlen : (0 < length bs)%nat).
  { subst bs. rewrite length_take, length_drop. lia. }
  destruct (list.last bs) as [c|] eqn:Hlast.
  - simpl. destruct (Ascii.eqb_spec c NUL) as [->|_]; [|done].
    destruct Hnul. apply last_Some_elem_of in Hlast.
    subst bs. by apply subseteq_take, subseteq_drop in Hlast.
  - apply last_None in Hlast. rewrite Hlast in Hlen. simpl in Hlen. lia.
Qed.

Lemma anchored_lengths records ras ea :
  Forall2 (anchored K reverse_complement unset_anchor load_read start end_ stride)
    records ras →
  ea ∈ ras →
  length (template_anchors ea) = N ∧ length (complement_anchors ea) = N.
Proof.
  intros Hf Hin. apply list_elem_of_lookup in Hin as [r Hr].
  destruct (Forall2_lookup_r _ _ _ _ _ Hf Hr) as (record & _ & Han).
  split; [apply (an_template _ _ _ _ _ _ _ _ _ Han)
         |apply (an_complement _ _ _ _ _ _ _ _ _ Han)].
Qed.

(** X19: the build returns an input when the region is valid, every record can
    be processed, the fetched reference reaches the start of every column
    before the last and holds no NUL, and some record has a defined
    coordinate at the position before the last. *)
Theorem build_succeeds records :
  records ≠ [] → Forall processable' records →
  (∀ p, (p < N - 1)%nat → Z.of_nat p * stride < fetched_len ref_segment) →
  ((2 ≤ N)%nat → ∃ record, record ∈ records ∧ opens' record (N - 2)%nat) →
  is_Some (build' records).
Proof.
  intros Hne Hall Href Hopen. unfold build_input_for_region.
  destruct (process_records_total records (Loaded [] [] []) Hall) as [acc Hacc].
  rewrite Hacc. simpl.
  pose proof (process_records_extends _ _ _ _ _ _ _ _ _ _ Hacc)
    as [_ (ras & Hras & Hf) _ Hgrown].
  simpl in Hras, Hgrown. pose proof (Forall2_length _ _ _ Hf) as Hlen.
  assert (is_Some (transpose K ref_segment stride acc)) as [cols ->]; [|done].
  unfold transpose. rewrite Hras.
  destruct (list.head ras) as [front|] eqn:Hfront; simpl.
  2:{ destruct ras as [|x ras']; [|simpl in Hfront; discriminate].
      destruct records; [by destruct Hne|simpl in Hlen; lia]. }
  destruct (list.last ras) as [back|] eqn:Hback; simpl.
  2:{ apply last_None in Hback. rewrite Hback in Hfront. discriminate. }
  apply head_Some_elem_of in Hfront. apply last_Some_elem_of in Hback.
  destruct (anchored_lengths _ _ _ Hf Hfront) as [-> _].
  destruct (anchored_lengths _ _ _ Hf Hback) as [-> _].
  rewrite Nat.eqb_refl. apply mapM_is_Some_2, Forall_forall. intros p Hp.
  apply elem_of_seq in Hp as [_ Hp]. simpl in Hp. unfold compose, build_column.
  rewrite Hras.
  destruct (gather_anchors_total ras p) as [l Hl].
  { apply Forall_forall. intros ea Hea.
    destruct (anchored_lengths _ _ _ Hf Hea) as [-> ->]. lia. }
  rewrite Hl. simpl. apply gather_anchors_spec in Hl as [Hl _].
  rewrite Hl, (Nat.mul_comm 2), Nat.eqb_refl. simpl.
  destruct (Z.of_nat p =? _) eqn:Hlast; [done|].
  assert (Hlt : (p < N - 1)%nat).
  { destruct (decide (p = N - 1)%nat) as [Heq|]; [|lia].
    apply (proj2 (is_last_iff start end_ stride p Hp)) in Heq. congruence. }
  pose proof (N_bound start end_ stride).
  destruct (column_base_sequence_total p ltac:(lia) (Href p Hlt)) as [bs ->]. simpl.
  destruct (Hopen ltac:(lia)) as (record & Hin & Hop).
  destruct (lookup_lt_is_Some_2 (read_substrings acc) p) as [al ->]; [|done].
  apply Hgrown. right. exists record, (N - 2)%nat. split; [done|]. split; [lia|done].
Qed.
End Total.

(** ** Outcomes of the build *)

Lemma for_range_reaches {S : Type} (body : nat → S → option S) first n st st' i :
  for_range body first n st = Some st' → (first ≤ i < first + n)%nat →
  ∃ s s', body i s = Some s'.
Proof.
  revert first st. induction n as [|n IH]; intros first st H Hi; simpl in H; [lia|].
  destruct (body first st) as [st1|] eqn:E; simpl in H; [|done].
  destruct (decide (i = first)) as [->|Hne]; [eauto|].
  apply (IH (Datatypes.S first) st1); [done|lia].
Qed.

Lemma lookup_alts (tbl : substring_table) j :
  (j < length tbl)%nat → tbl !! j = Some (alts tbl j).
Proof.
  intros Hj. unfold alts. by destruct (lookup_lt_is_Some_2 _ _ Hj) as [x ->].
Qed.

(** X9: pushing a string for interval [ai] grows the table to [ai + 1] rows
    when it is shorter, the new rows before [ai] being empty, appends the
    string to row [ai] and leaves the other rows as they are. *)
Theorem substring_table_push ai s tbl :
  length (push_alt ai s tbl) = (length tbl `max` S ai)%nat
  ∧ push_alt ai s tbl !! ai = Some (alts tbl ai ++ [s])
  ∧ (∀ j, j ≠ ai → (j < length tbl)%nat → push_alt ai s tbl !! j = tbl !! j)
  ∧ (∀ j, (length tbl ≤ j < ai)%nat → push_alt ai s tbl !! j = Some []).
Proof.
  pose proof (push_alt_length ai s tbl) as Hlen.
  split; [done|]. split; [|split].
  - rewrite lookup_alts by lia. by rewrite push_alt_alts, decide_True.
  - intros j Hne Hj. rewrite lookup_alts by lia.
    rewrite push_alt_alts, decide_False by done. by rewrite <- lookup_alts.
  - intros j Hj. rewrite lookup_alts by lia.
    rewrite push_alt_alts, decide_False by lia.
    unfold alts. by rewrite lookup_ge_None_2 by lia.
Qed.

(** X10: for a read on the forward strand the string of an interval starts at
    the coordinate [k0] and has [min k1 (size - K) - k0 + K] characters; when
    that count is negative its conversion to [size_t] makes [substr] return
    the read from [k0] to its end. *)
Theorem alt_sequence_forward K reverse_complement sr k0 k1 :
  let size := Z.of_nat (length (read_sequence sr)) in
  let count := Z.min k1 (size - K) - k0 + K in
  size ≤ INT_MAX → 0 ≤ K ≤ INT_MAX → 0 ≤ k0 ∧ k0 ≤ size → -1 ≤ k1 ≤ INT_MAX →
  alt_sequence K reverse_complement sr false k0 k1
  = Some (if 0 <=? count
          then take (Z.to_nat count) (drop (Z.to_nat k0) (read_sequence sr))
          else drop (Z.to_nat k0) (read_sequence sr)).
Proof.
  cbv zeta. intros Hsize HK Hk0 Hk1. unfold INT_MAX in *.
  unfold alt_sequence, alt_interval.
  remember (Z.of_nat (length (read_sequence sr))) as size eqn:Hsz.
  destruct (Z.leb_spec 0 k0) as [_|]; [|lia].
  assert ((if k1 <=? size - K then k1 else size - K) = Z.min k1 (size - K)) as ->.
  { destruct (Z.leb_spec k1 (size - K)); lia. }
  remember (Z.min k1 (size - K) - k0 + K) as count eqn:Hcount.
  unfold substr. rewrite (to_size_t_small k0) by lia. rewrite <- Hsz.
  destruct (Z.ltb_spec size k0) as [|_]; [lia|]. simpl. f_equal.
  destruct (Z.leb_spec 0 count).
  - rewrite to_size_t_small by lia. f_equal. lia.
  - unfold to_size_t.
    replace (count mod 2 ^ 64) with (count + 2 ^ 64).
    2:{ symmetry. rewrite <- (Z.mod_add count 1) by lia.
        rewrite Z.mod_small; lia. }
    rewrite take_ge; [done|]. rewrite length_drop. lia.
Qed.

Section BuildFacts.
Variable K : Z.
Variable reverse_complement : cstring → cstring.
Variable unset_anchor : HMMStrandAnchor.
Variable load_read : string → SquiggleRead.
Variables (ref_segment : cstring) (start end_ stride : Z).

Local Abbreviation N := (Z.to_nat (Walker.num_anchors start end_ stride)).
Local Abbreviation sampled' := (sampled start end_ stride).
Local Abbreviation read_anchor' := (read_anchor unset_anchor load_read).
Local Abbreviation read_emitted' :=
  (read_emitted K reverse_complement load_read start end_ stride).
Local Abbreviation process_record' :=
  (process_record K reverse_complement unset_anchor load_read start end_ stride).
Local Abbreviation process_records' :=
  (process_records K reverse_complement unset_anchor load_read start end_ stride).
Local Abbreviation build_column' := (build_column K ref_segment stride).
Local Abbreviation transpose' := (transpose K ref_segment stride).
Local Abbreviation build' :=
  (build_input_for_region K reverse_complement unset_anchor load_read
     ref_segment start end_ stride).
Local Abbreviation extends' :=
  (extends K reverse_complement unset_anchor load_read start end_ stride).
Local Abbreviation anchored' :=
  (anchored K reverse_complement unset_anchor load_read start end_ stride).
Local Abbreviation opens' := (opens start end_ stride).
Local Abbreviation empty := (Loaded [] [] []).

Lemma anchor_step_events sr do_base_rc rbfa i st st' k :
  anchor_step K reverse_complement sr do_base_rc rbfa i st = Some st' →
  rbfa !! i = Some k → k ≠ -1 →
  get_closest_event_to sr (if do_base_rc then flip_k_strand sr k else k) T_IDX ≠ -1
  ∧ get_closest_event_to sr (if do_base_rc then flip_k_strand sr k else k) C_IDX ≠ -1.
Proof.
  destruct st as [ea tbl]. unfold anchor_step. intros H Hk Hne.
  rewrite Hk in H. simpl in H.
  destruct (Z.eqb_spec k (-1)) as [|_]; [done|].
  destruct (Z.eqb_spec (get_closest_event_to sr
              (if do_base_rc then flip_k_strand sr k else k) T_IDX) (-1)); [done|].
  destruct (Z.eqb_spec (get_closest_event_to sr
              (if do_base_rc then flip_k_strand sr k else k) C_IDX) (-1)); [done|].
  done.
Qed.

Lemma anchor_read_events sr do_base_rc rbfa tbl st' p k :
  anchor_read K reverse_complement unset_anchor sr do_base_rc rbfa tbl = Some st' →
  rbfa !! p = Some k → k ≠ -1 →
  get_closest_event_to sr (if do_base_rc then flip_k_strand sr k else k) T_IDX ≠ -1
  ∧ get_closest_event_to sr (if do_base_rc then flip_k_strand sr k else k) C_IDX ≠ -1.
Proof.
  unfold anchor_read. intros H Hk Hne. apply lookup_lt_Some in Hk as Hp.
  destruct (for_range_reaches _ _ _ _ _ p H ltac:(lia)) as (s & s' & Hstep).
  by apply (anchor_step_events _ _ _ _ _ _ _ Hstep).
Qed.

Lemma process_records_each records acc acc' record :
  process_records' records acc = Some acc' → record ∈ records →
  ∃ a a', process_record' record a = Some a'.
Proof.
  revert acc. induction records as [|r records IH]; intros acc H Hin; simpl in H.
  - by apply elem_of_nil in Hin.
  - destruct (process_record' r acc) as [acc1|] eqn:E; simpl in H; [|done].
    apply elem_of_cons in Hin as [->|Hin]; [eauto|]. by apply (IH acc1).
Qed.

(** X11: a build that returns has found, for every defined coordinate of every
    record, an event on both strands, and has extracted a string for every
    interval that starts at a defined coordinate. *)
Theorem build_requires_events records ret record p k :
  build' records = Some ret → record ∈ records →
  sampled' record !! p = Some k → k ≠ -1 →
  let sr := load_read (qname record) in
  let read_kidx := if is_rev record then flip_k_strand sr k else k in
  get_closest_event_to sr read_kidx T_IDX ≠ -1
  ∧ get_closest_event_to sr read_kidx C_IDX ≠ -1
  ∧ ∀ k1, sampled' record !! S p = Some k1 →
      is_Some (alt_sequence K reverse_complement sr (is_rev record) k k1).
Proof.
  intros H Hin Hk Hne sr read_kidx.
  destruct (build_inv _ _ _ _ _ _ _ _ _ _ H) as (acc & Hacc & Hext & _).
  destruct (process_records_each _ _ _ _ Hacc Hin) as (a & a' & Hrec).
  unfold process_record in Hrec.
  destruct (match_read_to_reference_anchors _ _ _ _) as [rbfa|] eqn:Hw;
    simpl in Hrec; [|done].
  destruct (anchor_read _ _ _ _ _ _ _) as [[ea tbl]|] eqn:Hr; simpl in Hrec; [|done].
  assert (Hs : sampled' record = rbfa) by (unfold sampled; by rewrite Hw).
  pose proof Hk as Hk'. rewrite Hs in Hk'.
  destruct (anchor_read_events _ _ _ _ _ _ _ Hr Hk' Hne) as [Ht Hc].
  split; [done|]. split; [done|]. intros k1 Hk1.
  destruct Hext as [_ (ras & _ & Hf) _ _].
  apply list_elem_of_lookup in Hin as [r Hr'].
  destruct (Forall2_lookup_l _ _ _ _ _ Hf Hr') as (ea' & _ & Han).
  by apply (an_extracted _ _ _ _ _ _ _ _ _ Han p k k1).
Qed.

(** X12: one record with an operation that the walk does not handle, reached
    before the reference cursor has passed the end of the region, makes the
    build of the whole region fail. *)
Theorem build_fails_on_unhandled_operation records record pre c post :
  record ∈ records → cigar record = pre ++ c :: post →
  Walker.cigar_incs (cigar_op c) = None →
  core_pos record + Walker.ref_span pre ≤ end_ →
  build' records = None.
Proof.
  intros Hin Hcig Hc Hpos.
  destruct (build' records) as [ret|] eqn:H; [exfalso|done].
  destruct (build_inv _ _ _ _ _ _ _ _ _ _ H) as (acc & Hacc & _).
  destruct (process_records_each _ _ _ _ Hacc Hin) as (a & a' & Hrec).
  unfold process_record, match_read_to_reference_anchors, Walker.run in Hrec.
  destruct (stride =? 0); [done|].
  rewrite Hcig in Hrec. by rewrite LocateFacts.walk_unhandled in Hrec.
Qed.

(** X13: the alternative sequences of a column before the last are the strings
    of its interval in the order the records were processed: one string from
    every record whose coordinate at the column's position is defined, taken
    between that coordinate and the next one, and none from the others. *)
Theorem column_alternatives records ret p col :
  build' records = Some ret → anchored_columns ret !! p = Some col → (p < N - 1)%nat →
  alt_sequences col = concat ((λ record, read_emitted' record p) <$> records)
  ∧ ∀ record, record ∈ records →
      (∀ k0, sampled' record !! p = Some k0 → k0 ≠ -1 →
         ∃ k1 s, sampled' record !! S p = Some k1
                 ∧ alt_sequence K reverse_complement (load_read (qname record))
                     (is_rev record) k0 k1 = Some s
                 ∧ read_emitted' record p = [s])
      ∧ (sampled' record !! p = Some (-1) → read_emitted' record p = []).
Proof.
  intros H Hp Hlt.
  destruct (build_inv _ _ _ _ _ _ _ _ _ _ H) as (acc & _ & Hext & Hcols & _).
  destruct (transpose_columns _ _ _ _ _ _ _ _ _ _ _ Hext Hcols) as (_ & _ & Hcol).
  destruct (Hcol p col Hp) as [HpN Hbuild].
  destruct (build_column_inv _ _ _ _ _ _ _ _ _ _ _ _ Hext HpN Hbuild)
    as (_ & _ & _ & Hseq).
  destruct Hseq as (_ & _ & Halts); [lia|]. split; [done|].
  intros record Hin. destruct Hext as [_ (ras & _ & Hf) _ _].
  apply list_elem_of_lookup in Hin as [r Hr].
  destruct (Forall2_lookup_l _ _ _ _ _ Hf Hr) as (ea & _ & Han).
  pose proof (an_sampled _ _ _ _ _ _ _ _ _ Han) as Hlen.
  unfold read_emitted, emitted. split.
  - intros k0 Hk0 Hne.
    destruct (lookup_lt_is_Some_2 (sampled' record) (S p) ltac:(lia)) as [k1 Hk1].
    destruct (an_extracted _ _ _ _ _ _ _ _ _ Han p k0 k1 Hk0 Hne Hk1) as [s Hs].
    exists k1, s. rewrite Hk0, Hk1, Hs.
    destruct (Z.eqb_spec k0 (-1)) as [|_]; done.
  - intros Hk0. rewrite Hk0. by destruct (sampled' record !! S p).
Qed.

(** X14: for a record on the forward strand a defined coordinate goes to the
    event lookup as it is; the template anchor is flagged false and the
    complement anchor true; the string pushed for an interval is the substring
    between the clamped coordinates, not reverse-complemented. *)
Theorem forward_read_anchors record acc acc' :
  process_record' record acc = Some acc' → is_rev record = false →
  let sr := load_read (qname record) in
  let size := Z.of_nat (length (read_sequence sr)) in
  ∃ ea, read_anchors acc' = read_anchors acc ++ [ea]
    ∧ ∀ p k, sampled' record !! p = Some k → k ≠ -1 →
        template_anchors ea !! p = Some (Anchor (get_closest_event_to sr k T_IDX) false)
        ∧ complement_anchors ea !! p
          = Some (Anchor (get_closest_event_to sr k C_IDX) true)
        ∧ ∀ k1, sampled' record !! S p = Some k1 →
            ∃ str,
              substr (read_sequence sr) (Z.max 0 k)
                (Z.min k1 (size - K) - Z.max 0 k + K) = Some str
              ∧ alts (read_substrings acc') p = alts (read_substrings acc) p ++ [str].
Proof.
  intros H Hrev sr size.
  apply process_record_extends in H as [_ (ras & Hras & Hf) Hal _].
  apply Forall2_cons_inv_l in Hf as (ea & ras' & Han & Hnil & ->).
  apply Forall2_nil_inv_l in Hnil as ->.
  exists ea. split; [done|]. intros p k Hk Hne.
  pose proof (an_anchor _ _ _ _ _ _ _ _ _ Han p k T_IDX Hk) as Ht.
  pose proof (an_anchor _ _ _ _ _ _ _ _ _ Han p k C_IDX Hk) as Hc.
  simpl in Ht, Hc. unfold read_anchor, event_anchor in Ht, Hc.
  destruct (Z.eqb_spec k (-1)) as [|_]; [done|]. rewrite Hrev in Ht, Hc.
  split; [done|]. split; [done|]. intros k1 Hk1.
  destruct (an_extracted _ _ _ _ _ _ _ _ _ Han p k k1 Hk Hne Hk1) as [s Hs].
  specialize (Hal p). simpl in Hal. rewrite app_nil_r in Hal.
  unfold read_emitted, emitted in Hal. rewrite Hk, Hk1, Hrev in Hal.
  destruct (Z.eqb_spec k (-1)) as [|_]; [done|].
  rewrite Hrev in Hs. rewrite Hs in Hal. simpl in Hal.
  unfold alt_sequence, alt_interval in Hs. fold sr in Hs. fold size in Hs.
  assert ((if 0 <=? k then k else 0) = Z.max 0 k) as Hmax
    by (destruct (Z.leb_spec 0 k); lia).
  assert ((if k1 <=? size - K then k1 else size - K) = Z.min k1 (size - K)) as Hmin
    by (destruct (Z.leb_spec k1 (size - K)); lia).
  rewrite Hmax, Hmin in Hs.
  destruct (substr _ _ _) as [str|]; simpl in Hs; [|done].
  exists str. split; [done|]. by simplify_eq.
Qed.

(** X15: at a position where the record has no coordinate both anchors keep
    their default value and nothing is pushed; nothing is pushed at the last
    position either. *)
Theorem unmapped_position_skipped record acc acc' :
  process_record' record acc = Some acc' →
  ∃ ea, read_anchors acc' = read_anchors acc ++ [ea]
    ∧ (∀ p, sampled' record !! p = Some (-1) →
         template_anchors ea !! p = Some unset_anchor
         ∧ complement_anchors ea !! p = Some unset_anchor
         ∧ alts (read_substrings acc') p = alts (read_substrings acc) p)
    ∧ (∀ p, (length (sampled' record) ≤ S p)%nat →
         alts (read_substrings acc') p = alts (read_substrings acc) p).
Proof.
  intros H.
  apply process_record_extends in H as [_ (ras & Hras & Hf) Hal _].
  apply Forall2_cons_inv_l in Hf as (ea & ras' & Han & Hnil & ->).
  apply Forall2_nil_inv_l in Hnil as ->.
  exists ea. split; [done|]. split.
  - intros p Hk.
    pose proof (an_anchor _ _ _ _ _ _ _ _ _ Han p _ T_IDX Hk) as Ht.
    pose proof (an_anchor _ _ _ _ _ _ _ _ _ Han p _ C_IDX Hk) as Hc.
    split; [done|]. split; [done|].
    rewrite Hal. simpl. unfold read_emitted, emitted. rewrite Hk.
    destruct (sampled' record !! S p); by rewrite !app_nil_r.
  - intros p Hp. rewrite Hal. simpl. unfold read_emitted, emitted.
    rewrite (lookup_ge_None_2 _ (S p)) by done.
    destruct (sampled' record !! p); by rewrite !app_nil_r.
Qed.

(** X16: after the loop over at least one record the transposition can only
    stop in a column before the last: at the reference sub-sequence or at the
    lookup in the table of alternative sequences. The assertions on the sizes
    of the anchor vectors hold. *)
Theorem transposition_succeeds_iff records acc :
  process_records' records empty = Some acc → records ≠ [] →
  is_Some (transpose' acc)
  ↔ ∀ p, (p < N - 1)%nat →
      is_Some (column_base_sequence K ref_segment stride p)
      ∧ (p < length (read_substrings acc))%nat.
Proof.
  intros Hacc Hne.
  pose proof (process_records_extends _ _ _ _ _ _ _ _ _ _ Hacc) as Hext.
  split.
  - intros [cols Hcols] p Hp.
    destruct (transpose_columns _ _ _ _ _ _ _ _ _ _ _ Hext Hcols) as (_ & Hlen & Hcol).
    destruct (lookup_lt_is_Some_2 cols p ltac:(lia)) as [col Hlook].
    destruct (Hcol p col Hlook) as [HpN Hbuild].
    destruct (build_column_inv _ _ _ _ _ _ _ _ _ _ _ _ Hext HpN Hbuild)
      as (_ & _ & _ & Hseq).
    destruct Hseq as (Hbs & Hal & _); [lia|].
    split; [by rewrite Hbs|by apply lookup_lt_Some in Hal].
  - intros Hall. destruct Hext as [_ (ras & Hras & Hf) _ _]. simpl in Hras.
    pose proof (Forall2_length _ _ _ Hf) as Hlen.
    unfold transpose. rewrite Hras.
    destruct (list.head ras) as [front|] eqn:Hfront; simpl.
    2:{ destruct ras as [|x ras']; [|simpl in Hfront; discriminate].
        destruct records; [by destruct Hne|simpl in Hlen; lia]. }
    destruct (list.last ras) as [back|] eqn:Hback; simpl.
    2:{ apply last_None in Hback. rewrite Hback in Hfront. discriminate. }
    apply head_Some_elem_of in Hfront. apply last_Some_elem_of in Hback.
    destruct (anchored_lengths _ _ _ _ _ _ _ _ _ _ Hf Hfront) as [-> _].
    destruct (anchored_lengths _ _ _ _ _ _ _ _ _ _ Hf Hback) as [-> _].
    rewrite Nat.eqb_refl. apply mapM_is_Some_2, Forall_forall. intros p Hp.
    apply elem_of_seq in Hp as [_ Hp]. simpl in Hp. unfold compose, build_column.
    rewrite Hras.
    destruct (gather_anchors_total ras p) as [l Hl].
    { apply Forall_forall. intros ea Hea.
      destruct (anchored_lengths _ _ _ _ _ _ _ _ _ _ Hf Hea) as [-> ->]. lia. }
    rewrite Hl. simpl. apply gather_anchors_spec in Hl as [Hl _].
    rewrite Hl, (Nat.mul_comm 2), Nat.eqb_refl. simpl.
    destruct (Z.of_nat p =? _) eqn:Hlast; [done|].
    assert (Hlt : (p < N - 1)%nat).
    { destruct (decide (p = N - 1)%nat) as [Heq|]; [|lia].
      apply (proj2 (is_last_iff start end_ stride p Hp)) in Heq. congruence. }
    destruct (Hall p Hlt) as [[bs ->] Htbl]. simpl.
    by destruct (lookup_lt_is_Some_2 (read_substrings acc) p Htbl) as [al ->].
Qed.
End BuildFacts.

(** X17: the reference sub-sequence of a column exists exactly when the
    fetched reference reaches the column's first offset. *)
Theorem base_sequence_defined_iff K ref_segment stride p :
  0 ≤ K ≤ INT_MAX → 0 < stride ≤ INT_MAX → fetched_len ref_segment ≤ INT_MAX →
  NUL ∉ ref_segment → Z.of_nat p < 2 ^ 32 →
  is_Some (column_base_sequence K ref_segment stride p)
  ↔ Z.of_nat p * stride < fetched_len ref_segment.
Proof.
  intros HK Hstride Hfetched Hnul Hp. split.
  - intros [bs Hbs].
    destruct (column_base_sequence_spec K ref_segment stride HK Hstride Hfetched
                p bs Hp Hbs) as [-> Hne].
    unfold fetched_len.
    destruct (decide (Z.of_nat p * stride < Z.of_nat (length ref_segment))); [done|].
    destruct Hne. rewrite drop_ge by lia. by rewrite take_nil.
  - by apply column_base_sequence_total.
Qed.

Section EndToEnd.
Variable K : Z.
Variable reverse_complement : cstring → cstring.
Variable unset_anchor : HMMStrandAnchor.
Variable load_read : string → SquiggleRead.
Variables (ref_segment : cstring) (start end_ stride : Z).

Local Abbreviation build' :=
  (build_input_for_region K reverse_complement unset_anchor load_read
     ref_segment start end_ stride).
Local Abbreviation read_anchor' := (read_anchor unset_anchor load_read).

(** X18: the anchors of column [p] come from the alignments alone: for the
    [r]-th record they are the anchors of the coordinate that the record's
    operations give the [p]-th sampled position, on the template strand and
    then on the complement strand. *)
Theorem column_anchors_of_alignment records ret p col r record :
  0 < stride → start ≤ end_ → end_ - start ≤ INT_MAX →
  build' records = Some ret →
  anchored_columns ret !! p = Some col → records !! r = Some record →
  let pos := Walker.sample_pos start stride p in
  let k := if pos <=? end_
           then Walker.locate (cigar record) 0 (core_pos record) pos else -1 in
  anchors col !! (2 * r)%nat = Some (read_anchor' record T_IDX k)
  ∧ anchors col !! (2 * r + 1)%nat = Some (read_anchor' record C_IDX k).
Proof.
  intros Hs Hr Hm H Hp Hrec pos k.
  destruct (build_inv _ _ _ _ _ _ _ _ _ _ H) as (acc & _ & Hext & Hcols & _).
  destruct (transpose_columns _ _ _ _ _ _ _ _ _ _ _ Hext Hcols) as (_ & _ & Hcol).
  destruct (Hcol p col Hp) as [HpN Hbuild].
  destruct (build_column_inv _ _ _ _ _ _ _ _ _ _ _ _ Hext HpN Hbuild)
    as (_ & Hord & _).
  destruct (Hord r record Hrec) as (k' & Hk' & Ht & Hc).
  destruct Hext as [_ (ras & _ & Hf) _ _].
  destruct (Forall2_lookup_l _ _ _ _ _ Hf Hrec) as (ea & _ & Han).
  pose proof (an_walk _ _ _ _ _ _ _ _ _ Han) as Hw.
  unfold match_read_to_reference_anchors in Hw.
  destruct (Walker.run _ _ _ _) as [st|] eqn:Hrun; [|done].
  injection Hw as Hw. rewrite <- Hw in Hk'.
  rewrite (LocateFacts.run_locate _ _ _ Hs Hr Hm _ _ Hrun p HpN) in Hk'.
  fold pos in Hk'. fold k in Hk'. by simplify_eq.
Qed.
End EndToEnd.


(** ** The clamp of the alternative-sequence coordinates *)

(** C3, as amended: the start coordinate is clamped from below to 0 and the
    end coordinate from above to [read_length - K], and nothing more; the
    substring is taken inside the read sequence when the clamped start is at
    most the read length, and [substr] throws when it is larger. *)
Theorem alt_interval_clamp K reverse_complement sr do_base_rc k0 k1 :
  Z.of_nat (length (read_sequence sr)) < 2 ^ 64 →
  let size := Z.of_nat (length (read_sequence sr)) in
  let start_kidx := (alt_interval K sr do_base_rc k0 k1).1 in
  let end_kidx := (alt_interval K sr do_base_rc k0 k1).2 in
  start_kidx = Z.max 0 (if do_base_rc then flip_k_strand sr k1 else k0)
  ∧ end_kidx = Z.min (if do_base_rc then flip_k_strand sr k0 else k1) (size - K)
  ∧ 0 ≤ start_kidx ∧ end_kidx ≤ size - K
  ∧ (start_kidx ≤ size →
       ∃ str pre post,
         substr (read_sequence sr) start_kidx (end_kidx - start_kidx + K) = Some str
         ∧ read_sequence sr = pre ++ str ++ post
         ∧ Z.of_nat (length pre) = start_kidx)
  ∧ (size < start_kidx → start_kidx ≤ INT_MAX →
       alt_sequence K reverse_complement sr do_base_rc k0 k1 = None).
Proof.
  intros Hsize. cbv zeta. unfold alt_sequence.
  destruct (alt_interval K sr do_base_rc k0 k1) as [s e] eqn:E. simpl.
  unfold alt_interval in E. injection E as Hs He.
  set (s0 := if do_base_rc then flip_k_strand sr k1 else k0) in *.
  set (e0 := if do_base_rc then flip_k_strand sr k0 else k1) in *.
  remember (Z.of_nat (length (read_sequence sr))) as size eqn:Hsz.
  clearbody s0 e0.
  assert (s = Z.max 0 s0) as Hs'.
  { revert Hs. destruct (Z.leb_spec 0 s0); intros <-; lia. }
  clear Hs.
  assert (e = Z.min e0 (size - K)) as He'.
  { revert He. destruct (Z.leb_spec e0 (size - K)); intros <-; lia. }
  clear He.
  split; [done|]. split; [done|]. split; [lia|]. split; [lia|]. split.
  - intros Hle. apply substr_in_bounds; lia.
  - intros Hgt Hint. unfold substr, INT_MAX in *.
    rewrite (to_size_t_small s) by lia. rewrite <- Hsz.
    destruct (Z.ltb_spec size s); [done|lia].
Qed.

(** * Checks on sample inputs *)

Example walk_identity :
  match_read_to_reference_anchors (matched_read 1000 101) 1000 1100 50
  = Some [0; 50; 100].
Proof. vm_compute. reflexivity. Qed.

Example walk_deletion :
  match_read_to_reference_anchors (deleted_read 1000 20 10 71) 1000 1100 50
  = Some [0; 40; 90].
Proof. vm_compute. reflexivity. Qed.

(** The conditions of [build_succeeds] hold for a forward and a reverse
    read over the region [0, 4]. *)
Example build_succeeds_sample :
  is_Some (Sample.build "AACCG" 0 4 2 [matched_read 0 5; reverse_read 0 5]).
Proof.
  apply build_succeeds.
  - lia.
  - unfold INT_MAX. lia.
  - unfold INT_MAX. lia.
  - unfold Sample.K, INT_MAX. lia.
  - vm_compute. discriminate.
  - intros H. repeat (apply elem_of_cons in H as [H|H]; [discriminate|]).
    by apply elem_of_nil in H.
  - done.
  - assert (Hp : ∀ record, record ∈ [matched_read 0 5; reverse_read 0 5] →
                processable Sample.K Sample.load_read 0 4 2 record).
    { intros record Hin. split.
      - repeat (apply elem_of_cons in Hin as [->|Hin]);
          [| |by apply elem_of_nil in Hin]; repeat constructor; vm_compute; eauto.
      - split; [repeat (apply elem_of_cons in Hin as [->|Hin]);
                  [| |by apply elem_of_nil in Hin]; vm_compute; reflexivity|].
        intros i k Hk Hne. cbv zeta.
        repeat (apply elem_of_cons in Hin as [->|Hin]);
          [| |by apply elem_of_nil in Hin].
        all: destruct i as [|[|[|i]]]; vm_compute in Hk; simplify_eq.
        all: (split; [vm_compute; discriminate|]).
        all: (split; [vm_compute; discriminate|]).
        all: intros k1 Hk1; vm_compute in Hk1; simplify_eq; vm_compute; discriminate. }
    by apply Forall_forall.
  - intros p Hp. vm_compute in Hp. unfold fetched_len. simpl. lia.
  - intros _. exists (matched_read 0 5). split; [apply elem_of_cons; by left|].
    split; [vm_compute; lia|]. exists 2. split; [vm_compute; reflexivity|lia].
Defined.

(** C1: the walk tests [ref_pos % stride], not the offset from
    [region_start].  For the region [1, 5] with stride 2 the cursor at
    reference position 1, which the specification samples, records nothing,
    and the cursor at position 2, which it does not sample, fills slot 0;
    five matched bases give [1; 3; -1] where positions 1, 3 and 5 hold the
    coordinates 0, 2 and 4. *)
Theorem stride_test_ignores_region_start :
  let st := Walker.State [-1; -1; -1] 0 1 [] in
  let st' := Walker.State [-1; -1; -1] 1 2 [] in
  Walker.records_spec 1 5 2 1 st = true
  ∧ Walker.records 1 5 2 1 st = false
  ∧ Walker.unit_step 1 5 2 1 1 st = Some st'
  ∧ Walker.records_spec 1 5 2 1 st' = false
  ∧ Walker.unit_step 1 5 2 1 1 st'
    = Some (Walker.State [1; -1; -1] 2 3 [(0%nat, 1)])
  ∧ match_read_to_reference_anchors (matched_read 1 5) 1 5 2 = Some [1; 3; -1].
Proof. vm_compute. repeat split. Qed.

(** C2: a read of 12 bases with three matched bases and nine soft-clipped
    ones has coordinates at positions 0 and 2 of the region [0, 4] and is
    unmapped at position 4, and the loop still pushes a string for the
    interval between positions 2 and 4, cut with the marker -1 as its end
    coordinate. *)
Theorem alternative_emitted_before_unmapped :
  sampled 0 4 2 (clipped_read 0 3 9) = [0; 2; -1]
  ∧ read_sequence (Sample.load_read "read") = list_ascii_of_string "ACGTTGCAACGG"
  ∧ alt_interval Sample.K (Sample.load_read "read") false 2 (-1) = (2, -1)
  ∧ ∃ ret col,
      Sample.build "AACCG" 0 4 2 [clipped_read 0 3 9] = Some ret
      ∧ anchored_columns ret !! 1%nat = Some col
      ∧ alt_sequences col = [list_ascii_of_string "GT"].
Proof.
  split; [vm_compute; reflexivity|]. split; [reflexivity|].
  split; [vm_compute; reflexivity|].
  eexists _, _. split; [vm_compute; reflexivity|]. split; reflexivity.
Qed.

(** C3 fails as stated: in a read of 10 bases with [K = 5] the start
    coordinate 8 of a forward read stays above [10 - 5], and the end
    coordinate of a reverse read stays below 0. *)
Lemma alt_interval_clamp_counterexample :
  let sr := Sample.squiggle_read "read" "ACGTTGCAAC" in
  ¬ ((alt_interval Sample.K sr false 8 9).1 ≤ 10 - Sample.K)
  ∧ ¬ (0 ≤ (alt_interval Sample.K sr true 8 9).2).
Proof. vm_compute. split; intros H; by apply H. Qed.

(** C6 fails as stated: with [K = 5] and stride 2 the columns 0 and 1 of a
    region of 9 bases are not truncated and share 5 reference offsets, not
    4. *)
Lemma overlap_counterexample :
  let ref := list_ascii_of_string "ACGTTGCAA" in
  untruncated Sample.K ref 2 0 ∧ untruncated Sample.K ref 2 1
  ∧ overlap Sample.K ref 2 0 ≠ Sample.K - 1
  ∧ ∃ ret c0 c1,
      Sample.build "ACGTTGCAA" 0 8 2 [matched_read 0 9] = Some ret
      ∧ anchored_columns ret !! 0%nat = Some c0
      ∧ anchored_columns ret !! 1%nat = Some c1
      ∧ base_sequence c0 = list_ascii_of_string "ACGTTGC"
      ∧ base_sequence c1 = list_ascii_of_string "GTTGCAA".
Proof.
  split; [vm_compute; discriminate|]. split; [vm_compute; discriminate|].
  split; [vm_compute; discriminate|].
  eexists _, _, _. split; [vm_compute; reflexivity|]. repeat split.
Qed.

(** ** Instances of the theorems on sample inputs *)

Lemma transposed_columns_witness :
  let records := [matched_read 0 5; reverse_read 0 5] in
  let N := Z.to_nat (Walker.num_anchors 0 4 2) in
  ∃ ret,
    Sample.build "AACCG" 0 4 2 records = Some ret
    ∧ reads ret = (Sample.load_read ∘ qname <$> records)
    ∧ (∀ record, record ∈ records →
         match_read_to_reference_anchors record 0 4 2 = Some (sampled 0 4 2 record)
         ∧ length (sampled 0 4 2 record) = N)
    ∧ length (anchored_columns ret) = N
    ∧ ∀ p col, anchored_columns ret !! p = Some col →
        length (anchors col) = (2 * length (reads ret))%nat
        ∧ (∀ r record, records !! r = Some record →
             ∃ k, sampled 0 4 2 record !! p = Some k
                  ∧ anchors col !! (2 * r)%nat
                    = Some (read_anchor Sample.unset_anchor Sample.load_read record T_IDX k)
                  ∧ anchors col !! (2 * r + 1)%nat
                    = Some (read_anchor Sample.unset_anchor Sample.load_read record C_IDX k))
        ∧ (p = (N - 1)%nat →
             anchors col ≠ [] ∧ base_sequence col = [] ∧ alt_sequences col = [])
        ∧ ((p < N - 1)%nat → base_sequence col ≠ []).
Proof.
  eexists. split; [vm_compute; reflexivity|].
  apply (transposed_columns Sample.K Sample.reverse_complement Sample.unset_anchor
           Sample.load_read (list_ascii_of_string "AACCG") 0 4 2
           [matched_read 0 5; reverse_read 0 5]).
  vm_compute. reflexivity.
Defined.

Lemma reference_subsequences_witness :
  let ref := list_ascii_of_string "ACGTTGCAA" in
  let N := Z.to_nat (Walker.num_anchors 0 8 2) in
  ∃ ret col,
    Sample.build "ACGTTGCAA" 0 8 2 [matched_read 0 9] = Some ret
    ∧ anchored_columns ret !! 0%nat = Some col
    ∧ base_sequence col
      = take (Z.to_nat (2 + Sample.K)) (drop (Z.to_nat (Z.of_nat 0 * 2)) ref)
    ∧ (untruncated Sample.K ref 2 0 →
         overlap Sample.K ref 2 0 = Sample.K
         ∧ Z.of_nat (length (base_sequence col)) = 2 + Sample.K
         ∧ Z.of_nat (length (drop (Z.to_nat 2) (base_sequence col))) = Sample.K)
    ∧ (∀ col', (1 < N - 1)%nat → anchored_columns ret !! 1%nat = Some col' →
         drop (Z.to_nat 2) (base_sequence col)
         = take (Z.to_nat Sample.K) (base_sequence col')).
Proof.
  eexists _, _. split; [vm_compute; reflexivity|]. split; [reflexivity|].
  apply (reference_subsequences Sample.K Sample.reverse_complement Sample.unset_anchor
           Sample.load_read (list_ascii_of_string "ACGTTGCAA") 0 8 2
           [matched_read 0 9] _ 0%nat).
  - vm_compute. split; discriminate.
  - vm_compute. split; [reflexivity|discriminate].
  - vm_compute. discriminate.
  - vm_compute. reflexivity.
  - reflexivity.
  - vm_compute. lia.
Defined.

Lemma reverse_read_anchors_witness :
  let record := reverse_read 0 5 in
  let sr := Sample.load_read (qname record) in
  let acc := Loaded [] [] [] in
  ∃ acc',
    process_record Sample.K Sample.reverse_complement Sample.unset_anchor
      Sample.load_read 0 4 2 record acc = Some acc'
    ∧ is_rev record = true
    ∧ match_read_to_reference_anchors record 0 4 2 = Some (sampled 0 4 2 record)
    ∧ ∃ ea, read_anchors acc' = read_anchors acc ++ [ea]
      ∧ ∀ p k, sampled 0 4 2 record !! p = Some k → k ≠ -1 →
          template_anchors ea !! p
          = Some (Anchor (get_closest_event_to sr (flip_k_strand sr k) T_IDX)
                         (is_rev record))
          ∧ complement_anchors ea !! p
            = Some (Anchor (get_closest_event_to sr (flip_k_strand sr k) C_IDX)
                           (negb (is_rev record)))
          ∧ ∀ k1, sampled 0 4 2 record !! S p = Some k1 →
              ∃ str,
                substr (read_sequence sr) (alt_interval Sample.K sr true k k1).1
                  ((alt_interval Sample.K sr true k k1).2
                   - (alt_interval Sample.K sr true k k1).1 + Sample.K)
                = Some str
                ∧ alts (read_substrings acc') p
                  = alts (read_substrings acc) p ++ [Sample.reverse_complement str].
Proof.
  eexists. split; [vm_compute; reflexivity|]. split; [reflexivity|].
  apply (reverse_read_anchors Sample.K Sample.reverse_complement Sample.unset_anchor
           Sample.load_read 0 4 2 (reverse_read 0 5) (Loaded [] [] [])).
  - vm_compute. reflexivity.
  - reflexivity.
Defined.

Lemma empty_region_fails_witness :
  Sample.build "AACCG" 0 4 2 [] = None
  ∧ ∃ ret, Sample.build "AACCG" 0 4 2 [matched_read 0 5] = Some ret
           ∧ [matched_read 0 5] ≠ [] ∧ reads ret ≠ [].
Proof.
  split.
  - apply (empty_region_fails Sample.K Sample.reverse_complement Sample.unset_anchor
             Sample.load_read (list_ascii_of_string "AACCG") 0 4 2).
  - eexists. split; [vm_compute; reflexivity|].
    apply (proj2 (empty_region_fails Sample.K Sample.reverse_complement
                    Sample.unset_anchor Sample.load_read
                    (list_ascii_of_string "AACCG") 0 4 2)).
    vm_compute. reflexivity.
Defined.

Lemma substring_table_bounds_witness :
  let records := [matched_read 0 1] in
  let N := Z.to_nat (Walker.num_anchors 0 4 2) in
  ∃ acc,
    process_records Sample.K Sample.reverse_complement Sample.unset_anchor
      Sample.load_read 0 4 2 records (Loaded [] [] []) = Some acc
    ∧ (2 ≤ N)%nat
    ∧ (∀ a, (a < length (read_substrings acc))%nat ↔
            ∃ record aj, record ∈ records ∧ (a ≤ aj)%nat ∧ opens 0 4 2 record aj)
    ∧ ((∀ p, (p < N - 1)%nat → is_Some (read_substrings acc !! p)) ↔
       ∃ record, record ∈ records ∧ opens 0 4 2 record (N - 2)%nat)
    ∧ ((∀ record, record ∈ records →
          sampled 0 4 2 record !! (N - 2)%nat = Some (-1)) →
       read_substrings acc !! (N - 2)%nat = None
       ∧ Sample.build "AACCG" 0 4 2 records = None).
Proof.
  eexists. split; [vm_compute; reflexivity|]. split; [vm_compute; lia|].
  apply (substring_table_bounds Sample.K Sample.reverse_complement Sample.unset_anchor
           Sample.load_read (list_ascii_of_string "AACCG") 0 4 2 [matched_read 0 1]).
  - vm_compute. reflexivity.
  - vm_compute. lia.
Defined.

Lemma alt_interval_clamp_witness :
  let sr := Sample.squiggle_read "read" "ACGTTGCAAC" in
  let size := Z.of_nat (length (read_sequence sr)) in
  let start_kidx := (alt_interval Sample.K sr false 8 9).1 in
  let end_kidx := (alt_interval Sample.K sr false 8 9).2 in
  size < 2 ^ 64
  ∧ start_kidx = Z.max 0 8
  ∧ end_kidx = Z.min 9 (size - Sample.K)
  ∧ 0 ≤ start_kidx ∧ end_kidx ≤ size - Sample.K
  ∧ (start_kidx ≤ size →
       ∃ str pre post,
         substr (read_sequence sr) start_kidx (end_kidx - start_kidx + Sample.K) = Some str
         ∧ read_sequence sr = pre ++ str ++ post
         ∧ Z.of_nat (length pre) = start_kidx)
  ∧ (size < start_kidx → start_kidx ≤ INT_MAX →
       alt_sequence Sample.K Sample.reverse_complement sr false 8 9 = None).
Proof.
  split; [vm_compute; reflexivity|].
  apply (alt_interval_clamp Sample.K Sample.reverse_complement
           (Sample.squiggle_read "read" "ACGTTGCAAC") false 8 9).
  vm_compute. reflexivity.
Defined.

(** ** Sample inputs of the properties of the build *)

Lemma alt_sequence_forward_witness :
  let sr := Sample.load_read "read" in
  let size := Z.of_nat (length (read_sequence sr)) in
  let count := Z.min (-1) (size - Sample.K) - 8 + Sample.K in
  alt_sequence Sample.K Sample.reverse_complement sr false 8 (-1)
  = Some (if 0 <=? count
          then take (Z.to_nat count) (drop (Z.to_nat 8) (read_sequence sr))
          else drop (Z.to_nat 8) (read_sequence sr)).
Proof.
  apply (alt_sequence_forward Sample.K Sample.reverse_complement
           (Sample.load_read "read") 8 (-1)).
  - vm_compute. discriminate.
  - vm_compute. split; discriminate.
  - vm_compute. split; discriminate.
  - vm_compute. split; discriminate.
Defined.

Lemma build_requires_events_witness :
  let record := reverse_read 0 5 in
  let sr := Sample.load_read (qname record) in
  ∃ ret,
    Sample.build "AACCG" 0 4 2 [matched_read 0 5; reverse_read 0 5] = Some ret
    ∧ get_closest_event_to sr (flip_k_strand sr 2) T_IDX ≠ -1
    ∧ get_closest_event_to sr (flip_k_strand sr 2) C_IDX ≠ -1
    ∧ ∀ k1, sampled 0 4 2 record !! 2%nat = Some k1 →
        is_Some (alt_sequence Sample.K Sample.reverse_complement sr true 2 k1).
Proof.
  eexists. split; [vm_compute; reflexivity|].
  eapply (build_requires_events Sample.K Sample.reverse_complement Sample.unset_anchor
           Sample.load_read (list_ascii_of_string "AACCG") 0 4 2
           [matched_read 0 5; reverse_read 0 5] _ (reverse_read 0 5) 1 2).
  - vm_compute. reflexivity.
  - apply elem_of_cons. right. apply elem_of_cons. by left.
  - vm_compute. reflexivity.
  - discriminate.
Defined.

Lemma build_fails_on_unhandled_operation_witness :
  Sample.build "AACCG" 0 4 2 [matched_read 0 5; padded_read 0 2 1 2] = None.
Proof.
  apply (build_fails_on_unhandled_operation Sample.K Sample.reverse_complement
           Sample.unset_anchor Sample.load_read (list_ascii_of_string "AACCG") 0 4 2
           [matched_read 0 5; padded_read 0 2 1 2] (padded_read 0 2 1 2)
           [cigar_word 2 BAM_CMATCH] (cigar_word 1 BAM_CPAD) [cigar_word 2 BAM_CMATCH]).
  - apply elem_of_cons. right. apply elem_of_cons. by left.
  - reflexivity.
  - reflexivity.
  - vm_compute. discriminate.
Defined.

Lemma column_alternatives_witness :
  let records := [matched_read 0 5; reverse_read 0 5] in
  ∃ ret col,
    Sample.build "AACCG" 0 4 2 records = Some ret
    ∧ anchored_columns ret !! 0%nat = Some col
    ∧ alt_sequences col
      = concat ((λ record, read_emitted Sample.K Sample.reverse_complement
                             Sample.load_read 0 4 2 record 0) <$> records)
    ∧ ∀ record, record ∈ records →
        (∀ k0, sampled 0 4 2 record !! 0%nat = Some k0 → k0 ≠ -1 →
           ∃ k1 s, sampled 0 4 2 record !! 1%nat = Some k1
                   ∧ alt_sequence Sample.K Sample.reverse_complement
                       (Sample.load_read (qname record)) (is_rev record) k0 k1 = Some s
                   ∧ read_emitted Sample.K Sample.reverse_complement
                       Sample.load_read 0 4 2 record 0 = [s])
        ∧ (sampled 0 4 2 record !! 0%nat = Some (-1) →
           read_emitted Sample.K Sample.reverse_complement
             Sample.load_read 0 4 2 record 0 = []).
Proof.
  eexists _, _. split; [vm_compute; reflexivity|]. split; [reflexivity|].
  eapply (column_alternatives Sample.K Sample.reverse_complement Sample.unset_anchor
           Sample.load_read (list_ascii_of_string "AACCG") 0 4 2
           [matched_read 0 5; reverse_read 0 5] _ 0%nat).
  - vm_compute. reflexivity.
  - reflexivity.
  - vm_compute. lia.
Defined.

Lemma forward_read_anchors_witness :
  let record := matched_read 0 5 in
  let sr := Sample.load_read (qname record) in
  let size := Z.of_nat (length (read_sequence sr)) in
  let acc := Loaded [] [] [] in
  ∃ acc',
    process_record Sample.K Sample.reverse_complement Sample.unset_anchor
      Sample.load_read 0 4 2 record acc = Some acc'
    ∧ ∃ ea, read_anchors acc' = read_anchors acc ++ [ea]
      ∧ ∀ p k, sampled 0 4 2 record !! p = Some k → k ≠ -1 →
          template_anchors ea !! p
          = Some (Anchor (get_closest_event_to sr k T_IDX) false)
          ∧ complement_anchors ea !! p
            = Some (Anchor (get_closest_event_to sr k C_IDX) true)
          ∧ ∀ k1, sampled 0 4 2 record !! S p = Some k1 →
              ∃ str,
                substr (read_sequence sr) (Z.max 0 k)
                  (Z.min k1 (size - Sample.K) - Z.max 0 k + Sample.K) = Some str
                ∧ alts (read_substrings acc') p = alts (read_substrings acc) p ++ [str].
Proof.
  eexists. split; [vm_compute; reflexivity|].
  apply (forward_read_anchors Sample.K Sample.reverse_complement Sample.unset_anchor
           Sample.load_read 0 4 2 (matched_read 0 5) (Loaded [] [] [])).
  - vm_compute. reflexivity.
  - reflexivity.
Defined.

Lemma unmapped_position_skipped_witness :
  let record := matched_read 0 1 in
  let acc := Loaded [] [] [] in
  ∃ acc',
    process_record Sample.K Sample.reverse_complement Sample.unset_anchor
      Sample.load_read 0 4 2 record acc = Some acc'
    ∧ ∃ ea, read_anchors acc' = read_anchors acc ++ [ea]
      ∧ (∀ p, sampled 0 4 2 record !! p = Some (-1) →
           template_anchors ea !! p = Some Sample.unset_anchor
           ∧ complement_anchors ea !! p = Some Sample.unset_anchor
           ∧ alts (read_substrings acc') p = alts (read_substrings acc) p)
      ∧ (∀ p, (length (sampled 0 4 2 record) ≤ S p)%nat →
           alts (read_substrings acc') p = alts (read_substrings acc) p).
Proof.
  eexists. split; [vm_compute; reflexivity|].
  apply (unmapped_position_skipped Sample.K Sample.reverse_complement
           Sample.unset_anchor Sample.load_read 0 4 2 (matched_read 0 1)
           (Loaded [] [] [])).
  vm_compute. reflexivity.
Defined.

Lemma transposition_succeeds_iff_witness :
  let records := [matched_read 0 5; reverse_read 0 5] in
  let ref := list_ascii_of_string "AACCG" in
  ∃ acc,
    process_records Sample.K Sample.reverse_complement Sample.unset_anchor
      Sample.load_read 0 4 2 records (Loaded [] [] []) = Some acc
    ∧ (is_Some (transpose Sample.K ref 2 acc)
       ↔ ∀ p, (p < Z.to_nat (Walker.num_anchors 0 4 2) - 1)%nat →
           is_Some (column_base_sequence Sample.K ref 2 p)
           ∧ (p < length (read_substrings acc))%nat).
Proof.
  eexists. split; [vm_compute; reflexivity|].
  apply (transposition_succeeds_iff Sample.K Sample.reverse_complement
           Sample.unset_anchor Sample.load_read (list_ascii_of_string "AACCG") 0 4 2
           [matched_read 0 5; reverse_read 0 5]).
  - vm_compute. reflexivity.
  - discriminate.
Defined.

Lemma base_sequence_defined_iff_witness :
  let ref := list_ascii_of_string "AACCG" in
  is_Some (column_base_sequence Sample.K ref 2 1)
  ↔ Z.of_nat 1 * 2 < fetched_len ref.
Proof.
  apply (base_sequence_defined_iff Sample.K (list_ascii_of_string "AACCG") 2 1).
  - vm_compute. split; discriminate.
  - vm_compute. split; [reflexivity|discriminate].
  - vm_compute. discriminate.
  - intros H. repeat (apply elem_of_cons in H as [H|H]; [discriminate|]).
    by apply elem_of_nil in H.
  - reflexivity.
Defined.

Lemma column_anchors_of_alignment_witness :
  let record := deleted_read 0 2 1 2 in
  let pos := Walker.sample_pos 0 2 1 in
  let k := if pos <=? 4
           then Walker.locate (cigar record) 0 (core_pos record) pos else -1 in
  ∃ ret col,
    Sample.build "AACCG" 0 4 2 [matched_read 0 5; record] = Some ret
    ∧ anchored_columns ret !! 1%nat = Some col
    ∧ anchors col !! (2 * 1)%nat
      = Some (read_anchor Sample.unset_anchor Sample.load_read record T_IDX k)
    ∧ anchors col !! (2 * 1 + 1)%nat
      = Some (read_anchor Sample.unset_anchor Sample.load_read record C_IDX k).
Proof.
  eexists _, _. split; [vm_compute; reflexivity|]. split; [reflexivity|].
  eapply (column_anchors_of_alignment Sample.K Sample.reverse_complement
            Sample.unset_anchor Sample.load_read (list_ascii_of_string "AACCG") 0 4 2
            [matched_read 0 5; deleted_read 0 2 1 2] _ 1%nat _ 1%nat).
  - lia.
  - lia.
  - unfold INT_MAX. lia.
  - vm_compute. reflexivity.
  - reflexivity.
  - reflexivity.
Defined.
